(** * Witness: the room server and the shared game module, embedded in Rocq.

    Sources: [src/shared/game.ts] (roles, deck, shuffle, message schemas) and
    the PartyKit room server [src/unnamed/part_000] (class [Server]).

    The server is a single-threaded event handler over one mutable room
    record. It is modelled by explicit state passing: every handler takes
    the [Server] value and returns the new one together with the list of
    messages it sent, in order. What the code reads from its environment
    ([Date.now()] and [Math.random()], hence also the generated display
    name) comes from an [Env] value supplied with each event. *)

From Stdlib Require Import ZArith QArith Qround String Ascii List Lia.
From stdpp Require Import base gmap strings list fin_maps sorting.

Local Open Scope string_scope.
Local Open Scope list_scope.
Local Open Scope Z_scope.

(** ** src/shared/game.ts: roles and game types *)

(** [roleKeys = ["A","B","C","D"]] and the type [RoleKey]. *)
Inductive RoleKey : Type := A | B | C | D.

Definition roleKeys : list RoleKey := [A; B; C; D].

#[global] Instance RoleKey_eq_dec : EqDecision RoleKey.
Proof. solve_decision. Defined.

Record Affects : Type := mkAffects {
  self : option bool;
  targetsRoleKeys : option (list RoleKey);
  global : option bool
}.

(** [RoleSpec]; its field [name] is [spec_name] here, [Player] has a [name]
    too. *)
Record RoleSpec : Type := mkRoleSpec {
  key : RoleKey;
  spec_name : string;
  description : string;
  affects : Affects
}.

(** [Player]. The [ready] field of the type is never written by the server,
    so a player record carries the five fields the server sets. A missing
    [roleKey] ([undefined]) is [None]. *)
Record Player : Type := mkPlayer {
  id : string;
  name : string;
  isHost : bool;
  joinedAt : Z;
  roleKey : option RoleKey
}.

(** [RoleConfig = Record<RoleKey, number>]: one count per role key. *)
Record RoleConfig : Type := mkRoleConfig {
  countA : Z; countB : Z; countC : Z; countD : Z
}.

Definition config_get (c : RoleConfig) (k : RoleKey) : Z :=
  match k with A => countA c | B => countB c | C => countC c | D => countD c end.

Definition config_set (c : RoleConfig) (k : RoleKey) (v : Z) : RoleConfig :=
  match k with
  | A => mkRoleConfig v (countB c) (countC c) (countD c)
  | B => mkRoleConfig (countA c) v (countC c) (countD c)
  | C => mkRoleConfig (countA c) (countB c) v (countD c)
  | D => mkRoleConfig (countA c) (countB c) (countC c) v
  end.

Inductive GameStatus : Type := lobby | assigned.

(** A JavaScript object used as a string-keyed record: its own properties in
    insertion order. The objects of the code are plain objects ([{}] or the
    result of [JSON.parse]), so a read [o[k]] that finds no own property
    falls through to the members inherited from [Object.prototype]: see
    [obj_read]. *)
Abbreviation Obj V := (list (string * V)) (only parsing).

(** [GameState]; the field [rolesCatalog] is [rolesCatalog_of] here, the
    constant of that name follows. A missing [assignedAt] is [None]. *)
Record GameState : Type := mkGameState {
  roomId : string;
  hostId : option string;
  status : GameStatus;
  players : Obj Player;
  roleConfig : RoleConfig;
  assignedAt : option Z;
  rolesCatalog_of : list RoleSpec
}.

Definition rolesCatalog : list RoleSpec :=
  [ mkRoleSpec A "Role A"
      "you primarily act on yourself. placeholder description for v1."
      (mkAffects (Some true) None None);
    mkRoleSpec B "Role B"
      "you target players with role A. placeholder description for v1."
      (mkAffects None (Some [A]) None);
    mkRoleSpec C "Role C"
      "you have a global effect. placeholder description for v1."
      (mkAffects None None (Some true));
    mkRoleSpec D "Role D"
      "you target players with roles B and C. placeholder description for v1."
      (mkAffects None (Some [B; C]) None) ].

(** [defaultRoleConfig]: every key of [roleKeys] set to 0. *)
Definition defaultRoleConfig : RoleConfig :=
  fold_left (fun acc k => config_set acc k 0) roleKeys (mkRoleConfig 0 0 0 0).

(** ** JavaScript objects: lookup, assignment, key order *)

(** The names of the members that every plain object inherits from
    [Object.prototype]. Each of them is a function or an object, hence a
    truthy value that is no player and has no [isHost]. *)
Definition Object_prototype_names : list string :=
  [ "constructor"; "__defineGetter__"; "__defineSetter__"; "hasOwnProperty";
    "__lookupGetter__"; "__lookupSetter__"; "isPrototypeOf";
    "propertyIsEnumerable"; "toString"; "valueOf"; "__proto__";
    "toLocaleString" ].

Definition inherited (k : string) : bool := bool_decide (k ∈ Object_prototype_names).

(** What a read [o[k]] yields: the value of the own property, an inherited
    member of [Object.prototype], or [undefined]. *)
Inductive Read (V : Type) : Type :=
| Own (v : V)
| Inherited
| Undefined.
Arguments Own {V} v.
Arguments Inherited {V}.
Arguments Undefined {V}.

Section Objects.
Context {V : Type}.

(** The own property [k] of [o], if there is one
    ([Object.hasOwn(o, k) ? o[k] : undefined]). *)
Fixpoint obj_get (k : string) (o : Obj V) : option V :=
  match o with
  | [] => None
  | (k', v) :: o' => if decide (k' = k) then Some v else obj_get k o'
  end.

(** [o[k] = v]: overwrite in place, or append a new property. *)
Fixpoint obj_set (k : string) (v : V) (o : Obj V) : Obj V :=
  match o with
  | [] => [(k, v)]
  | (k', v') :: o' =>
      if decide (k' = k) then (k, v) :: o' else (k', v') :: obj_set k v o'
  end.

(** [o[k].field = ...]: mutate the object stored under [k], if any. *)
Fixpoint obj_update (k : string) (f : V -> V) (o : Obj V) : Obj V :=
  match o with
  | [] => []
  | (k', v) :: o' =>
      if decide (k' = k) then (k', f v) :: o' else (k', v) :: obj_update k f o'
  end.

(** [o[k]]: own properties first, then the prototype. *)
Definition obj_read (k : string) (o : Obj V) : Read V :=
  match obj_get k o with
  | Some v => Own v
  | None => if inherited k then Inherited else Undefined
  end.

(** A loop that mutates the value stored under each key of [ks] in turn. *)
Definition update_all (f : V -> V) (ks : list string) (o : Obj V) : Obj V :=
  fold_left (fun acc k => obj_update k f acc) ks o.
End Objects.

(** Stable insertion sort; [le x y] says that [x] may stay in front of [y].
    [Array.prototype.sort] is stable, and so is this one. *)
Section Sort.
Context {T : Type} (le : T -> T -> bool).

(** [x] goes in front of the first element it may stay in front of. *)
Fixpoint insert_by (x : T) (l : list T) : list T :=
  match l with
  | [] => [x]
  | y :: l' => if le x y then x :: y :: l' else y :: insert_by x l'
  end.

Definition sort_by (l : list T) : list T := foldr insert_by [] l.
End Sort.

(** The key order of [Object.keys] and [Object.entries] puts the keys that
    are array indices first. *)
Definition is_digit (c : ascii) : bool :=
  let n := nat_of_ascii c in ((48 <=? n) && (n <=? 57))%nat.

(** The value of a string of decimal digits, [None] if another character
    occurs. *)
Fixpoint digits_value (s : string) (acc : N) : option N :=
  match s with
  | EmptyString => Some acc
  | String c s' =>
      if is_digit c
      then digits_value s' (acc * 10 + N.of_nat (nat_of_ascii c - 48))%N
      else None
  end.

(** A property name is an array index when it is the canonical decimal form
    of an integer in [0, 2^32 - 2]. *)
Definition array_index (s : string) : option N :=
  match s with
  | EmptyString => None
  | String c rest =>
      if decide (c = "0"%char /\ rest <> EmptyString) then None
      else match digits_value s 0%N with
           | Some n => if (n <=? 4294967294)%N then Some n else None
           | None => None
           end
  end.

Section ObjectOrder.
Context {V : Type}.

(** The properties whose key is an array index, each with its index. *)
Definition indexed (o : Obj V) : list (N * (string * V)) :=
  omap (fun e => match array_index (fst e) with
                 | Some n => Some (n, e)
                 | None => None
                 end) o.

(** The other properties. *)
Definition named (o : Obj V) : Obj V :=
  filter (fun e => array_index (fst e) = None) o.

(** [Object.entries(o)]: array-index keys in ascending numeric order, then
    the other keys in insertion order. *)
Definition Object_entries (o : Obj V) : Obj V :=
  map snd (sort_by (fun a b => (fst a <=? fst b)%N) (indexed o)) ++ named o.

(** [Object.keys(o)] *)
Definition Object_keys (o : Obj V) : list string := map fst (Object_entries o).
End ObjectOrder.

(** ** src/shared/game.ts: utility helpers *)

(** [buildDeck]: for each key of [roleKeys], [count] copies of the key; the
    inner loop [for (i = 0; i < count; i++)] runs [max 0 count] times. *)
Definition buildDeck (config : RoleConfig) : list RoleKey :=
  fold_left (fun deck k => deck ++ replicate (Z.to_nat (config_get config k)) k)
            roleKeys [].

(** [totalRoles] *)
Definition totalRoles (config : RoleConfig) : Z :=
  fold_left (fun sum k => sum + config_get config k) roleKeys 0.

(** [Math.floor(r * n)] for a draw [r] of the random source, in exact
    arithmetic. *)
Definition floor_scaled (r : Q) (n : nat) : Z :=
  Qfloor (r * inject_Z (Z.of_nat n)).

(** [arr[z]] for a numeric index. *)
Definition js_index {T : Type} (arr : list T) (z : Z) : option T :=
  if z <? 0 then None else arr !! Z.to_nat z.

(** [[arr[i], arr[j]] = [arr[j], arr[i]]]. Both sides are read first, then
    [arr[i]] and [arr[j]] are written in that order. The definition covers
    the indices the loop of [shuffle] produces when the random source keeps
    the contract of [Math.random] (draws in [0, 1), see [unit_draws]): both
    are then in range. Out of range the code would store [undefined] and
    could lengthen the array; such arrays are outside this model, which
    leaves the list alone there. *)
Definition swap {T : Type} (arr : list T) (i j : nat) : list T :=
  match arr !! i, arr !! j with
  | Some x, Some y => <[j := x]> (<[i := y]> arr)
  | _, _ => arr
  end.

(** The loop of [shuffle]: [i] runs from [arr.length - 1] down to 1; [call]
    counts the calls of [rng] made so far. *)
Fixpoint shuffle_loop {T : Type} (rng : nat -> Q) (i call : nat) (arr : list T)
  : list T :=
  match i with
  | O => arr
  | S i' =>
      let j := Z.to_nat (floor_scaled (rng call) (i + 1)) in
      shuffle_loop rng i' (S call) (swap arr i j)
  end.

(** [shuffle(list, rng)] *)
Definition shuffle {T : Type} (l : list T) (rng : nat -> Q) : list T :=
  shuffle_loop rng (length l - 1) 0 l.

(** ** src/shared/game.ts: messaging schemas *)

(** The value [JSON.parse] returns. A number is either an integer or some
    other numeric value (which [z.number().int()] refuses). *)
#[warnings="-register-all"]
Inductive json : Type :=
| JNull
| JBool (b : bool)
| JInt (n : Z)
| JNonInt
| JString (s : string)
| JArray (items : list json)
| JObject (fields : list (string * json)).

(** [ClientMessage]: what [clientMessageSchema.parse] returns. *)
Inductive ClientMessage : Type :=
| Join (name clientId : string)
| SetName (name : string)
| SetReady (ready : bool)
| SetRoleCount (roleKey : RoleKey) (count : Z)
| AssignRoles
| Reset
| RequestState.

(** [roleKeySchema] *)
Definition roleKeySchema (v : option json) : option RoleKey :=
  match v with
  | Some (JString s) =>
      if decide (s = "A") then Some A
      else if decide (s = "B") then Some B
      else if decide (s = "C") then Some C
      else if decide (s = "D") then Some D
      else None
  | _ => None
  end.

(** [z.string().max(n)] and [z.string().min(n)]; the length of a string is
    the number of its characters. *)
Definition string_between (lo hi : option nat) (v : option json) : option string :=
  match v with
  | Some (JString s) =>
      if (match lo with Some n => (n <=? String.length s)%nat | None => true end)
         && (match hi with Some n => (String.length s <=? n)%nat | None => true end)
      then Some s else None
  | _ => None
  end.

(** [clientMessageSchema.parse]: a discriminated union on the field [type];
    unknown fields are dropped, a missing or ill-typed field fails. *)
Definition clientMessageSchema (v : json) : option ClientMessage :=
  match v with
  | JObject fields =>
      match obj_get "type" fields with
      | Some (JString t) =>
          if decide (t = "join") then
            match string_between None (Some 64%nat) (obj_get "name" fields),
                  string_between (Some 1%nat) None (obj_get "clientId" fields) with
            | Some n, Some c => Some (Join n c)
            | _, _ => None
            end
          else if decide (t = "setName") then
            match string_between None (Some 64%nat) (obj_get "name" fields) with
            | Some n => Some (SetName n)
            | None => None
            end
          else if decide (t = "setReady") then
            match obj_get "ready" fields with
            | Some (JBool b) => Some (SetReady b)
            | _ => None
            end
          else if decide (t = "setRoleCount") then
            match roleKeySchema (obj_get "roleKey" fields),
                  obj_get "count" fields with
            | Some k, Some (JInt n) =>
                if (0 <=? n) && (n <=? 99) then Some (SetRoleCount k n) else None
            | _, _ => None
            end
          else if decide (t = "assignRoles") then Some AssignRoles
          else if decide (t = "reset") then Some Reset
          else if decide (t = "requestState") then Some RequestState
          else None
      | _ => None
      end
  | _ => None
  end.

(** [ServerMessage] *)
Inductive ServerMessage : Type :=
| StateMsg (st : GameState)
| ErrorMsg (message : string).

(** ** src/unnamed/part_000: the room server *)

(** A connection is identified by its [conn.id]. [connections] is a [Set]
    (insertion order, no duplicates); [connectionIdToClientId] is a [Map]. *)
Record Server : Type := mkServer {
  state : GameState;
  connections : list string;
  connectionIdToClientId : gmap string string
}.

(** What the environment answers while one event is handled. [random n] is
    the value of the [n]-th call of [Math.random()] (counting from 0). *)
Record Env : Type := mkEnv {
  now : Z;
  random : nat -> Q
}.

(** One [send(conn, data)]: the recipient and the message. A failing
    [conn.send] is caught and logged, so a send never changes control flow. *)
Definition Sent : Type := (string * ServerMessage)%type.

(** [constructor(room)] *)
Definition init (room_id : string) : Server :=
  {| state := {| roomId := room_id;
                 hostId := None;
                 status := lobby;
                 players := [];
                 roleConfig := defaultRoleConfig;
                 assignedAt := None;
                 rolesCatalog_of := rolesCatalog |};
     connections := [];
     connectionIdToClientId := ∅ |}.

Definition first_names : list string :=
  [ "agnes"; "beatrice"; "clement"; "dorothy"; "edmund"; "florence";
    "gilbert"; "harriet"; "ira"; "judith"; "katharine"; "leopold"; "mabel";
    "nora"; "oswald"; "pearl"; "quincy"; "rosalind"; "silas"; "thelma";
    "ulysses"; "victor"; "wilhelmina"; "xavier"; "yvette"; "zeke" ].

Definition last_names : list string :=
  [ "abbott"; "barnaby"; "carrington"; "davenport"; "ellsworth";
    "farnsworth"; "gafford"; "hathaway"; "inglewood"; "jennings";
    "kensington"; "lancaster"; "montgomery"; "norwood"; "oakley";
    "pendleton"; "quidley"; "rosenberg"; "sinclair"; "thornton"; "upton";
    "vanderbilt"; "whitaker"; "york"; "zabriski" ].

(** A template-string hole: [undefined] prints as "undefined". *)
Definition template_hole (s : option string) : string :=
  match s with Some x => x | None => "undefined" end.

(** [generateOldTimeyName()]: two calls of [Math.random()]. *)
Definition generateOldTimeyName (env : Env) : string :=
  let f := js_index first_names (floor_scaled (random env 0) (length first_names)) in
  let l := js_index last_names (floor_scaled (random env 1) (length last_names)) in
  (template_hole f ++ " " ++ template_hole l)%string.

Definition set_roleKey (r : option RoleKey) (p : Player) : Player :=
  {| id := id p; name := name p; isHost := isHost p; joinedAt := joinedAt p;
     roleKey := r |}.

Definition set_players (ps : Obj Player) (s : GameState) : GameState :=
  {| roomId := roomId s; hostId := hostId s; status := status s;
     players := ps; roleConfig := roleConfig s; assignedAt := assignedAt s;
     rolesCatalog_of := rolesCatalog_of s |}.

(** A string is falsy exactly when it is empty. *)
Definition truthy (s : string) : bool := if decide (s = "") then false else true.

(** The body of the loop of [personalizeStateFor]: a copy [{ ...p }] of the
    player, whose [roleKey] is set to [undefined] when
    [!viewerClientId || id !== viewerClientId]. *)
Definition redact (viewerClientId : option string) (e : string * Player) : Player :=
  match viewerClientId with
  | Some v => if truthy v && bool_decide (fst e = v)
              then snd e else set_roleKey None (snd e)
  | None => set_roleKey None (snd e)
  end.

(** [personalizeStateFor(viewerClientId)]: a fresh [players] object is filled
    in the order of [Object.entries], and replaces [players] in a copy of the
    state. *)
Definition personalizeStateFor (s : GameState) (viewerClientId : option string)
  : GameState :=
  set_players
    (fold_left (fun acc e => obj_set (fst e) (redact viewerClientId e) acc)
               (Object_entries (players s)) [])
    s.

(** [sendStateTo(conn)] *)
Definition sendStateTo (srv : Server) (conn : string) : list Sent :=
  [(conn, StateMsg (personalizeStateFor (state srv)
                      (connectionIdToClientId srv !! conn)))].

(** [broadcastState()] *)
Definition broadcastState (srv : Server) : list Sent :=
  flat_map (sendStateTo srv) (connections srv).

(** [getSenderPlayer(conn)]: what [this.state.players[clientId]] reads for
    the client id bound to the connection, and the error sent when the
    connection is bound to no (truthy) client id. *)
Definition getSenderPlayer (srv : Server) (conn : string)
  : Read Player * list Sent :=
  match connectionIdToClientId srv !! conn with
  | Some clientId =>
      if truthy clientId then (obj_read clientId (players (state srv)), [])
      else (Undefined, [(conn, ErrorMsg "please join first")])
  | None => (Undefined, [(conn, ErrorMsg "please join first")])
  end.

(** [!player || !player.isHost]: an inherited member is truthy and its
    [isHost] is [undefined]. *)
Definition not_host (p : Read Player) : bool :=
  match p with
  | Own pl => negb (isHost pl)
  | Inherited => true
  | Undefined => true
  end.

(** [onConnect(conn, ctx)] *)
Definition onConnect (conn : string) (srv : Server) : Server * list Sent :=
  let srv' := {| state := state srv;
                 connections := if bool_decide (conn ∈ connections srv)
                                then connections srv
                                else connections srv ++ [conn];
                 connectionIdToClientId := connectionIdToClientId srv |} in
  (srv', [(conn, StateMsg (personalizeStateFor (state srv) None))]).

(** [onClose(conn)] *)
Definition onClose (conn : string) (srv : Server) : Server :=
  {| state := state srv;
     connections := filter (fun c => c <> conn) (connections srv);
     connectionIdToClientId :=
       match connectionIdToClientId srv !! conn with
       | Some clientId =>
           if truthy clientId then delete conn (connectionIdToClientId srv)
           else connectionIdToClientId srv
       | None => connectionIdToClientId srv
       end |}.

(** [orderedPlayers]: the players in [Object.keys] order, sorted by
    ascending [joinedAt]. Each element stands for a reference to the player
    object stored under its key. *)
Definition orderedPlayers (ps : Obj Player) : Obj Player :=
  sort_by (fun a b => joinedAt (snd a) <=? joinedAt (snd b)) (Object_entries ps).

(** [for (i ...) orderedPlayers[i].roleKey = shuffled[i]]: the write goes to
    the player object held by the room state; past the end of [shuffled] the
    value written is [undefined]. *)
Fixpoint assign_loop (ordered : Obj Player) (shuffled : list RoleKey)
  (ps : Obj Player) : Obj Player :=
  match ordered with
  | [] => ps
  | (k, _) :: ordered' =>
      assign_loop ordered' (tail shuffled)
                  (obj_update k (set_roleKey (head shuffled)) ps)
  end.

(** [for (const id of Object.keys(players)) players[id].roleKey = undefined] *)
Definition clear_roles (ps : Obj Player) : Obj Player :=
  update_all (set_roleKey None) (Object_keys ps) ps.

(** The [switch (msg.type)] of [onMessage]. *)
Definition dispatch (env : Env) (msg : ClientMessage) (sender : string)
  (srv : Server) : Server * list Sent :=
  let s := state srv in
  match msg with
  | Join _ clientId =>
      if truthy clientId then
        let bound := <[sender := clientId]> (connectionIdToClientId srv) in
        let s' :=
          match obj_read clientId (players s) with
          | Own _ | Inherited =>
              (* [existing] is truthy: the record is left as it is *)
              s
          | Undefined =>
              let isFirst := bool_decide (length (Object_keys (players s)) = 0%nat) in
              {| roomId := roomId s;
                 hostId := if isFirst then Some clientId else hostId s;
                 status := status s;
                 players := obj_set clientId
                              {| id := clientId;
                                 name := generateOldTimeyName env;
                                 isHost := isFirst;
                                 joinedAt := now env;
                                 roleKey := None |} (players s);
                 roleConfig := roleConfig s;
                 assignedAt := assignedAt s;
                 rolesCatalog_of := rolesCatalog_of s |}
          end in
        let srv' := {| state := s'; connections := connections srv;
                       connectionIdToClientId := bound |} in
        (srv', broadcastState srv')
      else (srv, [(sender, ErrorMsg "missing clientId")])
  | SetRoleCount roleKey count =>
      (* [if (!msg.roleKey || typeof msg.count !== "number") return;] never
         fires: a role key is a non-empty string and [count] is a number. *)
      let (player, sent) := getSenderPlayer srv sender in
      if not_host player then
        (srv, sent ++ [(sender, ErrorMsg "only host can edit roles")])
      else
        let s' := {| roomId := roomId s; hostId := hostId s; status := status s;
                     players := players s;
                     roleConfig := config_set (roleConfig s) roleKey
                                     (Z.max 0 (Z.min 99 count));
                     assignedAt := assignedAt s;
                     rolesCatalog_of := rolesCatalog_of s |} in
        let srv' := {| state := s'; connections := connections srv;
                       connectionIdToClientId := connectionIdToClientId srv |} in
        (srv', sent ++ broadcastState srv')
  | AssignRoles =>
      let (player, sent) := getSenderPlayer srv sender in
      if not_host player then
        (srv, sent ++ [(sender, ErrorMsg "only host can assign roles")])
      else
        let playerIds := Object_keys (players s) in
        let deck := buildDeck (roleConfig s) in
        if negb (length deck =? length playerIds)%nat then
          (srv, sent ++ [(sender, ErrorMsg "role count must equal number of players")])
        else
          let shuffled := shuffle deck (random env) in
          let s' := {| roomId := roomId s; hostId := hostId s;
                       status := assigned;
                       players := assign_loop (orderedPlayers (players s))
                                              shuffled (players s);
                       roleConfig := roleConfig s;
                       assignedAt := Some (now env);
                       rolesCatalog_of := rolesCatalog_of s |} in
          let srv' := {| state := s'; connections := connections srv;
                         connectionIdToClientId := connectionIdToClientId srv |} in
          (srv', sent ++ broadcastState srv')
  | Reset =>
      let (player, sent) := getSenderPlayer srv sender in
      if not_host player then
        (srv, sent ++ [(sender, ErrorMsg "only host can reset")])
      else
        let s' := {| roomId := roomId s; hostId := hostId s;
                     status := lobby;
                     players := clear_roles (players s);
                     roleConfig := roleConfig s;
                     assignedAt := None;
                     rolesCatalog_of := rolesCatalog_of s |} in
        let srv' := {| state := s'; connections := connections srv;
                       connectionIdToClientId := connectionIdToClientId srv |} in
        (srv', sent ++ broadcastState srv')
  | RequestState => (srv, sendStateTo srv sender)
  | SetName _ | SetReady _ =>
      (srv, [(sender, ErrorMsg "unknown message type")])
  end.

(** [onMessage(raw, sender)]. [parsed] is the result of [JSON.parse(raw)],
    [None] when it throws. *)
Definition onMessage (env : Env) (parsed : option json) (sender : string)
  (srv : Server) : Server * list Sent :=
  match parsed ≫= clientMessageSchema with
  | None => (srv, [(sender, ErrorMsg "invalid message")])
  | Some msg => dispatch env msg sender srv
  end.

(** ** Runs of the server *)

Inductive Event : Type :=
| Connect (conn : string)
| Close (conn : string)
| Message (env : Env) (parsed : option json) (sender : string).

Definition step (ev : Event) (srv : Server) : Server * list Sent :=
  match ev with
  | Connect conn => onConnect conn srv
  | Close conn => (onClose conn srv, [])
  | Message env parsed sender => onMessage env parsed sender srv
  end.

Definition run (evs : list Event) (srv : Server) : Server :=
  fold_left (fun acc ev => fst (step ev acc)) evs srv.

(** The states a room can be in: those a fresh room reaches by events. *)
Inductive reachable : Server -> Prop :=
| reachable_init room_id : reachable (init room_id)
| reachable_step ev srv : reachable srv -> reachable (fst (step ev srv)).

(** ** Vocabulary of the statements *)

(** The connection is bound to a client id whose participant is the host. *)
Definition bound_to_host (srv : Server) (conn : string) : Prop :=
  exists c h,
    connectionIdToClientId srv !! conn = Some c /\ c <> ""
    /\ obj_get c (players (state srv)) = Some h /\ isHost h = true.

(** The contract of [Math.random]: every draw lies in [0, 1). *)
Definition unit_draws (env : Env) : Prop :=
  forall n, (0 <= random env n)%Q /\ (random env n < 1)%Q.

Definition roleKey_string (k : RoleKey) : string :=
  match k with A => "A" | B => "B" | C => "C" | D => "D" end.

(** The JSON value a client sends for a command (the argument of its
    [JSON.stringify]). *)
Definition wire (m : ClientMessage) : json :=
  JObject
    match m with
    | Join n c => [("type", JString "join"); ("name", JString n); ("clientId", JString c)]
    | SetName n => [("type", JString "setName"); ("name", JString n)]
    | SetReady b => [("type", JString "setReady"); ("ready", JBool b)]
    | SetRoleCount k n =>
        [("type", JString "setRoleCount"); ("roleKey", JString (roleKey_string k));
         ("count", JInt n)]
    | AssignRoles => [("type", JString "assignRoles")]
    | Reset => [("type", JString "reset")]
    | RequestState => [("type", JString "requestState")]
    end.

Definition is_error (m : ServerMessage) : bool :=
  match m with ErrorMsg _ => true | StateMsg _ => false end.

(** What the schema asks of the fields of a command. *)
Definition schema_accepts (m : ClientMessage) : Prop :=
  match m with
  | Join n c => (String.length n <= 64)%nat /\ c <> ""
  | SetName n => (String.length n <= 64)%nat
  | SetRoleCount _ n => 0 <= n <= 99
  | SetReady _ | AssignRoles | Reset | RequestState => True
  end.

(** The display name stored for participant [k], if there is one. *)
Definition name_of (k : string) (s : GameState) : option string :=
  name <$> obj_get k (players s).

(** One join command as it reaches the server: what the environment
    answers while it is handled, the two fields of the message, and the
    connection it arrives on. *)
Record JoinCmd : Type := mkJoinCmd {
  join_env : Env;
  join_name : string;
  join_clientId : string;
  join_conn : string
}.

Definition join_event (j : JoinCmd) : Event :=
  Message (join_env j) (Some (wire (Join (join_name j) (join_clientId j))))
          (join_conn j).

(** What the schema asks of a join message. *)
Definition valid_join (j : JoinCmd) : Prop :=
  (String.length (join_name j) <= 64)%nat /\ join_clientId j <> "".

(** The room has a host [h], created first at time [t0] under the id [c0];
    nobody else is host, and the [joinedAt] of everybody else satisfies
    [late]. *)
Definition host_first (late : Z -> Prop) (c0 : string) (t0 : Z) (s : GameState) : Prop :=
  exists h rest,
    players s = (c0, h) :: rest
    /\ id h = c0 /\ isHost h = true /\ joinedAt h = t0
    /\ hostId s = Some c0
    /\ Forall (fun e : string * Player => isHost e.2 = false /\ late (joinedAt e.2)) rest.

(** ** A small room, used to exercise the statements *)

Definition ex_env (t : Z) : Env := mkEnv t (fun _ => (1 # 2)%Q).

(** Two clients connect and join ([p1] first), then the host sets the
    quota to one [A] and one [B]. *)
Definition ex_lobby : Server :=
  run [ Connect "c1"; Message (ex_env 1000) (Some (wire (Join "ann" "p1"))) "c1";
        Connect "c2"; Message (ex_env 1001) (Some (wire (Join "bob" "p2"))) "c2";
        Message (ex_env 1002) (Some (wire (SetRoleCount A 1))) "c1";
        Message (ex_env 1003) (Some (wire (SetRoleCount B 1))) "c1" ]
      (init "room").

(** Two well-formed join commands, one millisecond apart. *)
Definition ex_joins : list JoinCmd :=
  [ mkJoinCmd (ex_env 1000) "ann" "p1" "c1"; mkJoinCmd (ex_env 1001) "bob" "p2" "c2" ].

(** Two well-formed join commands whose second reads an earlier clock. *)
Definition ex_backwards : list JoinCmd :=
  [ mkJoinCmd (ex_env 1000) "ann" "p1" "c1"; mkJoinCmd (ex_env 999) "bob" "p2" "c2" ].

(** A well-formed join command under the name of an inherited member. *)
Definition ex_inherited : list JoinCmd :=
  [ mkJoinCmd (ex_env 1000) "ann" "toString" "c1" ].

(** The same room after the host has dealt the roles. *)
Definition ex_assigned : Server :=
  run [ Message (ex_env 1004) (Some (wire AssignRoles)) "c1" ] ex_lobby.

(** What every room state built by the server satisfies: each participant
    is stored once, under its own non-empty id, and every quota lies in
    [0, 99]. *)
Record wf_state (s : GameState) : Prop := mk_wf {
  wf_keys : NoDup (players s).*1;
  wf_ids : Forall (fun e : string * Player => e.1 <> "" /\ id e.2 = e.1) (players s);
  wf_quota : forall r, 0 <= config_get (roleConfig s) r <= 99
}.

(** ** Further code of the two files *)

(** A flag of [affects] is set when it is present and [true]. *)
Definition flag_set (b : option bool) : bool :=
  match b with Some true => true | _ => false end.

(** [computeImpactScore(viewerRoleKey, role)] (src/shared/game.ts). A role
    key is a non-empty string and an array is an object, so both are truthy
    whenever they are present. *)
Definition computeImpactScore (viewerRoleKey : option RoleKey) (role : RoleSpec) : Z :=
  let score := 0 in
  let score := if flag_set (global (affects role)) then score + 1 else score in
  let score :=
    if flag_set (self (affects role))
       && match viewerRoleKey with
          | Some v => bool_decide (key role = v)
          | None => false
          end
    then score + 2 else score in
  let score :=
    if match viewerRoleKey, targetsRoleKeys (affects role) with
       | Some v, Some targets => bool_decide (v ∈ targets)
       | _, _ => false
       end
    then score + 3 else score in
  score.

(** The position of a key in [roleKeys]. *)
Definition role_index (k : RoleKey) : nat :=
  match k with A => 0 | B => 1 | C => 2 | D => 3 end.

(** [Object.values(o)] *)
Definition Object_values {V : Type} (o : Obj V) : list V := map snd (Object_entries o).

(** [findNextHostId()] (room server): the id of the earliest joiner, [null]
    in an empty room. The sort works on the fresh array of
    [Object.values]. *)
Definition findNextHostId (srv : Server) : option string :=
  let remaining := Object_values (players (state srv)) in
  if bool_decide (length remaining = 0%nat) then None
  else id <$> head (sort_by (fun a b => joinedAt a <=? joinedAt b) remaining).

(** The debugging summary built by [onRequest]. *)
Record PlayerSummary : Type := mkPlayerSummary {
  summary_id : string;
  summary_name : string;
  summary_isHost : bool
}.

Record Summary : Type := mkSummary {
  summary_roomId : string;
  summary_status : GameStatus;
  summary_players : list PlayerSummary;
  summary_roleConfig : RoleConfig;
  summary_totalRoles : Z
}.

(** A [Response]: [Response.json(summary)], or a text body with a status. *)
Inductive Response : Type :=
| JsonResponse (body : Summary)
| TextResponse (body : string) (http_status : Z).

(** [onRequest(req)], as a function of [req.method]. *)
Definition onRequest (method : string) (srv : Server) : Response :=
  if decide (method = "GET") then
    JsonResponse
      {| summary_roomId := roomId (state srv);
         summary_status := status (state srv);
         summary_players :=
           map (fun p => mkPlayerSummary (id p) (name p) (isHost p))
               (Object_values (players (state srv)));
         summary_roleConfig := roleConfig (state srv);
         summary_totalRoles := totalRoles (roleConfig (state srv)) |}
  else TextResponse "method not allowed" 405.

(** Two player records that differ at most in [roleKey]. *)
Definition same_person (p p' : Player) : Prop :=
  id p' = id p /\ name p' = name p /\ isHost p' = isHost p /\ joinedAt p' = joinedAt p.

(** The roles the participants hold, in storage order. *)
Definition roles_held (s : GameState) : list RoleKey :=
  omap (fun e : string * Player => roleKey e.2) (players s).

(** [ps'] keeps the participants of [ps], each in its place and the same up
    to [roleKey], and may hold newcomers after them. *)
Definition keeps_participants (ps ps' : Obj Player) : Prop :=
  exists kept extra,
    ps' = kept ++ extra
    /\ Forall2 (fun e e' : string * Player => e'.1 = e.1 /\ same_person e.2 e'.2)
               ps kept.

(** The host data of a room: no host in an empty room; otherwise the
    participant stored first is the host, [hostId] is its key, and nobody
    else is a host. *)
Definition one_host (s : GameState) : Prop :=
  match players s with
  | [] => hostId s = None
  | (k, h) :: rest =>
      hostId s = Some k /\ isHost h = true
      /\ Forall (fun e : string * Player => isHost e.2 = false) rest
  end.

(** ** The room view of the client (src/unnamed/part_001) *)

(** [me]: [state.players[clientId] ?? null]; [state] is the object that
    [JSON.parse] built from the server's message. *)
Definition client_me (st : GameState) (clientId : string) : Read Player :=
  obj_read clientId (players st).

(** [canAssign] of the component [Room], as the button reads it
    ([!!canAssign]): [state.status === "lobby" && me?.isHost &&
    totalRoles === playerCount]. *)
Definition canAssign (st : GameState) (clientId : string) : bool :=
  let playerCount := length (Object_keys (players st)) in
  let total := fold_left (fun sum k => sum + config_get (roleConfig st) k) roleKeys 0 in
  match status st with
  | lobby =>
      match client_me st clientId with
      | Own me => isHost me && (total =? Z.of_nat playerCount)
      | Inherited => false
      | Undefined => false
      end
  | assigned => false
  end.

(** [myRole] of the component [AssignedView]:
    [rolesCatalog.find((r) => r.key === me.roleKey)]. *)
Definition myRole (me : Player) : option RoleSpec :=
  List.find (fun r => bool_decide (Some (key r) = roleKey me)) rolesCatalog.

(** [sorted] of the component [AssignedView]: a copy of the catalog sorted
    by [score(b) - score(a)], that is by falling impact score. *)
Definition sortedRoles (me : Player) : list RoleSpec :=
  sort_by (fun a b => computeImpactScore (roleKey me) b <=? computeImpactScore (roleKey me) a)
          rolesCatalog.

(** * Properties *)

(** ** Objects *)

(** The three answers of a read [o[k]] on the participants of [srv]. *)
Ltac read_cases c srv :=
  unfold obj_read;
  let Hg := fresh "Hg" in
  let Hinh := fresh "Hinh" in
  destruct (obj_get c (players (state srv))) eqn:Hg;
    [|destruct (inherited c) eqn:Hinh].

Section ObjectFacts.
Context {V : Type}.
Implicit Types (o : Obj V) (k : string) (f : V -> V).

Lemma obj_get_update k k' f o :
  obj_get k' (obj_update k f o)
  = if decide (k = k') then f <$> obj_get k' o else obj_get k' o.
Proof.
  induction o as [|[a v] o IH]; simpl.
  - by destruct (decide (k = k')).
  - destruct (decide (a = k)) as [->|Hak]; simpl.
    + destruct (decide (k = k')); [done|]. by destruct (decide (k = k')).
    + destruct (decide (a = k')) as [->|Hak'].
      * destruct (decide (k = k')); [congruence | done].
      * apply IH.
Qed.

Lemma obj_update_keys k f o : (obj_update k f o).*1 = o.*1.
Proof.
  induction o as [|[a v] o IH]; [done|]. simpl obj_update.
  destruct (decide (a = k)); csimpl; [done | by f_equal].
Qed.

Lemma obj_update_length k f o : length (obj_update k f o) = length o.
Proof.
  induction o as [|[a v] o IH]; simpl; [done|].
  destruct (decide (a = k)); simpl; [done | by rewrite IH].
Qed.

Lemma obj_get_None k o : obj_get k o = None <-> k ∉ o.*1.
Proof.
  induction o as [|[a v] o IH]; simpl.
  - split; [intros _; apply not_elem_of_nil | done].
  - destruct (decide (a = k)) as [->|Hak].
    + split; [done | intros H; exfalso; apply H; left].
    + rewrite IH, not_elem_of_cons. split; [by intros | by intros [_ ?]].
Qed.

Lemma obj_get_elem k v o : obj_get k o = Some v -> (k, v) ∈ o.
Proof.
  induction o as [|[a w] o IH]; simpl; [done|].
  destruct (decide (a = k)) as [->|Hak].
  - intros [= ->]. left.
  - intros H. right. by apply IH.
Qed.

Lemma obj_get_NoDup k v o : NoDup o.*1 -> (k, v) ∈ o -> obj_get k o = Some v.
Proof.
  induction o as [|[a w] o IH]; simpl.
  - intros _ H. by apply elem_of_nil in H.
  - rewrite NoDup_cons. intros [Ha Hnd] [H|H]%elem_of_cons.
    + injection H as -> ->. by rewrite decide_True.
    + destruct (decide (a = k)) as [->|Hak]; [|by apply IH].
      exfalso. apply Ha. apply list_elem_of_fmap. by exists (k, v).
Qed.

Lemma obj_set_fresh k v o : obj_get k o = None -> obj_set k v o = o ++ [(k, v)].
Proof.
  induction o as [|[a w] o IH]; simpl; [done|].
  destruct (decide (a = k)); [done|]. intros H. by rewrite IH.
Qed.

Lemma obj_get_app k o1 o2 :
  obj_get k (o1 ++ o2)
  = match obj_get k o1 with Some v => Some v | None => obj_get k o2 end.
Proof.
  induction o1 as [|[a w] o1 IH]; simpl; [done|].
  by destruct (decide (a = k)).
Qed.

Lemma obj_update_comm k1 k2 f o :
  obj_update k1 f (obj_update k2 f o) = obj_update k2 f (obj_update k1 f o).
Proof.
  induction o as [|[a w] o IH]; simpl; [done|].
  destruct (decide (a = k2)) as [H2|H2], (decide (a = k1)) as [H1|H1]; simpl;
    repeat case_decide; try done.
  by rewrite IH.
Qed.

Lemma obj_update_idemp k f o :
  (forall v, f (f v) = f v) ->
  obj_update k f (obj_update k f o) = obj_update k f o.
Proof.
  intros Hf. induction o as [|[a w] o IH]; simpl; [done|].
  destruct (decide (a = k)) as [->|H]; simpl.
  - by rewrite decide_True, Hf.
  - by rewrite decide_False, IH.
Qed.

Lemma update_all_keys f ks o : (update_all f ks o).*1 = o.*1.
Proof.
  revert o. induction ks as [|k ks IH]; intros o; simpl; [done|].
  unfold update_all in *. simpl. by rewrite IH, obj_update_keys.
Qed.

Lemma update_all_push f ks k o :
  obj_update k f (update_all f ks o) = update_all f ks (obj_update k f o).
Proof.
  revert o. induction ks as [|a ks IH]; intros o; [done|].
  unfold update_all in *. simpl. by rewrite IH, obj_update_comm.
Qed.

Lemma update_all_absorb f ks k o :
  (forall v, f (f v) = f v) -> k ∈ ks ->
  obj_update k f (update_all f ks o) = update_all f ks o.
Proof.
  intros Hf. revert o. induction ks as [|a ks IH]; intros o Hk.
  - by apply elem_of_nil in Hk.
  - apply elem_of_cons in Hk as [->|Hk].
    + change (update_all f (a :: ks) o) with (update_all f ks (obj_update a f o)).
      by rewrite update_all_push, obj_update_idemp.
    + change (update_all f (a :: ks) o) with (update_all f ks (obj_update a f o)).
      by apply IH.
Qed.

Lemma update_all_idemp f ks ks' o :
  (forall v, f (f v) = f v) -> ks' ⊆ ks ->
  update_all f ks' (update_all f ks o) = update_all f ks o.
Proof.
  intros Hf. induction ks' as [|a ks' IH]; intros Hsub; [done|].
  change (update_all f (a :: ks') (update_all f ks o))
    with (update_all f ks' (obj_update a f (update_all f ks o))).
  rewrite update_all_absorb by (done || set_solver).
  apply IH. set_solver.
Qed.

Lemma obj_get_update_all f ks k o :
  (forall v, f (f v) = f v) ->
  obj_get k (update_all f ks o)
  = if decide (k ∈ ks) then f <$> obj_get k o else obj_get k o.
Proof.
  intros Hf. revert o. induction ks as [|a ks IH]; intros o.
  - simpl. destruct (decide (k ∈ [])) as [Hn|_]; [by apply elem_of_nil in Hn | done].
  - change (update_all f (a :: ks) o) with (update_all f ks (obj_update a f o)).
    rewrite IH, obj_get_update.
    destruct (decide (a = k)) as [Hak|Hak].
    + subst a. destruct (decide (k ∈ k :: ks)) as [_|Hn]; [|by destruct Hn; left].
      destruct (decide (k ∈ ks)); [|done].
      destruct (obj_get k o); simpl; [by rewrite Hf | done].
    + destruct (decide (k ∈ ks)) as [Hin|Hin].
      * destruct (decide (k ∈ a :: ks)) as [_|Hn]; [done | by destruct Hn; right].
      * destruct (decide (k ∈ a :: ks)) as [[?|?]%elem_of_cons|_]; done.
Qed.
End ObjectFacts.

(** ** Sorting and key order *)

Section SortFacts.
Context {T : Type} (le : T -> T -> bool).
Hypothesis le_total : forall x y, le x y = false -> le y x = true.
Hypothesis le_trans : forall x y z, le x y = true -> le y z = true -> le x z = true.

Lemma insert_by_perm x l : insert_by le x l ≡ₚ x :: l.
Proof.
  induction l as [|y l IH]; simpl; [done|].
  destruct (le x y); [done|]. rewrite IH. apply perm_swap.
Qed.

Lemma sort_by_perm l : sort_by le l ≡ₚ l.
Proof.
  induction l as [|x l IH]; simpl; [done|].
  rewrite insert_by_perm. by f_equiv.
Qed.

Lemma insert_by_sorted x l :
  StronglySorted (fun a b => le a b = true) l ->
  StronglySorted (fun a b => le a b = true) (insert_by le x l).
Proof.
  induction 1 as [|y l Hs IH Hy]; simpl.
  - repeat constructor.
  - destruct (le x y) eqn:Hxy.
    + constructor; [by constructor|]. constructor; [done|].
      eapply Forall_impl; [exact Hy|]. simpl. intros z Hz. by eapply le_trans.
    + constructor; [done|]. rewrite insert_by_perm.
      constructor; [by apply le_total | done].
Qed.

Lemma sort_by_sorted l : StronglySorted (fun a b => le a b = true) (sort_by le l).
Proof.
  induction l as [|x l IH]; simpl; [constructor|]. by apply insert_by_sorted.
Qed.
End SortFacts.

Lemma StronglySorted_weaken {T} (R R' : T -> T -> Prop) l :
  (forall a b, R a b -> R' a b) -> StronglySorted R l -> StronglySorted R' l.
Proof.
  intros HR. induction 1 as [|x l Hs IH Hx]; constructor; [done|].
  eapply Forall_impl; [exact Hx | apply HR].
Qed.

Section OrderFacts.
Context {V : Type}.

Lemma indexed_entries (o : Obj V) :
  (indexed o).*2 = filter (fun e => ~ array_index (fst e) = None) o.
Proof.
  induction o as [|e o IH]; [done|].
  rewrite (filter_cons _ e o). unfold indexed in *. csimpl.
  destruct (array_index e.1) eqn:He; csimpl.
  - by f_equal.
  - done.
Qed.

Lemma Object_entries_perm (o : Obj V) : Object_entries o ≡ₚ o.
Proof.
  unfold Object_entries.
  change (map snd ?l) with (l.*2).
  rewrite (fmap_Permutation snd _ _ (sort_by_perm _ (indexed o))).
  rewrite indexed_entries, (comm (++)).
  unfold named. apply (filter_app_complement (fun e => array_index e.1 = None)).
Qed.

Lemma Object_keys_perm (o : Obj V) : Object_keys o ≡ₚ o.*1.
Proof. unfold Object_keys. apply fmap_Permutation, Object_entries_perm. Qed.

Lemma Object_keys_length (o : Obj V) : length (Object_keys o) = length o.
Proof. by rewrite Object_keys_perm, length_fmap. Qed.

Lemma elem_of_Object_keys k (o : Obj V) : k ∈ Object_keys o <-> k ∈ o.*1.
Proof. by rewrite Object_keys_perm. Qed.
End OrderFacts.

(** ** The deck and the shuffle *)

Lemma buildDeck_unfold config :
  buildDeck config
  = replicate (Z.to_nat (countA config)) A ++ replicate (Z.to_nat (countB config)) B
    ++ replicate (Z.to_nat (countC config)) C ++ replicate (Z.to_nat (countD config)) D.
Proof. unfold buildDeck. simpl. by rewrite <-!(assoc (++)). Qed.

Lemma buildDeck_length config :
  length (buildDeck config)
  = (Z.to_nat (countA config) + Z.to_nat (countB config)
     + Z.to_nat (countC config) + Z.to_nat (countD config))%nat.
Proof. rewrite buildDeck_unfold, !length_app, !length_replicate. lia. Qed.

Lemma totalRoles_unfold config :
  totalRoles config = countA config + countB config + countC config + countD config.
Proof. unfold totalRoles. simpl. lia. Qed.


Lemma swap_perm {T : Type} (arr : list T) i j : swap arr i j ≡ₚ arr.
Proof.
  unfold swap. destruct (arr !! i) eqn:Hi; [|done].
  destruct (arr !! j) eqn:Hj; [|done]. by apply Permutation_insert_swap.
Qed.

Lemma shuffle_loop_perm {T : Type} rng i call (arr : list T) :
  shuffle_loop rng i call arr ≡ₚ arr.
Proof.
  revert call arr. induction i as [|i IH]; intros call arr; simpl; [done|].
  by rewrite IH, swap_perm.
Qed.

Lemma shuffle_perm {T : Type} (l : list T) rng : shuffle l rng ≡ₚ l.
Proof. apply shuffle_loop_perm. Qed.

(** With draws in [0, 1) the index [j] of every swap lies in [0, i]. *)
Lemma floor_scaled_range r n :
  (0 <= r)%Q -> (r < 1)%Q -> (0 < n)%nat ->
  0 <= floor_scaled r n < Z.of_nat n.
Proof.
  intros H0 H1 Hn. unfold floor_scaled. split.
  - change 0 with (Qfloor 0). apply Qfloor_resp_le.
    apply Qmult_le_0_compat; [done|]. unfold Qle. simpl. lia.
  - apply Z.lt_nge. intros Hge.
    assert (Hlt : (r * inject_Z (Z.of_nat n) < inject_Z (Z.of_nat n))%Q).
    { rewrite <-(Qmult_1_l (inject_Z (Z.of_nat n))) at 2.
      apply Qmult_lt_r; [|done]. unfold Qlt. simpl. lia. }
    pose proof (Qfloor_le (r * inject_Z (Z.of_nat n))) as Hfl.
    assert (Hle : (inject_Z (Z.of_nat n) <= inject_Z (Qfloor (r * inject_Z (Z.of_nat n))))%Q).
    { rewrite <-Zle_Qle. exact Hge. }
    apply (Qlt_irrefl (inject_Z (Z.of_nat n))).
    eapply Qle_lt_trans; [|exact Hlt]. eapply Qle_trans; [exact Hle | exact Hfl].
Qed.


(** ** Well-formed rooms *)

Section UpdateFacts.
Context {V : Type} (Q : string * V -> Prop) (f : string -> V -> V).
Hypothesis Q_f : forall k k' v, Q (k, v) -> Q (k, f k' v).

Lemma obj_update_Forall k k' (o : Obj V) :
  Forall Q o -> Forall Q (obj_update k (f k') o).
Proof.
  induction 1 as [|[a v] o Hq Ho IH]; simpl; [constructor|].
  destruct (decide (a = k)); constructor; auto.
Qed.
End UpdateFacts.

Lemma assign_loop_keys ordered shuffled ps :
  (assign_loop ordered shuffled ps).*1 = ps.*1.
Proof.
  revert shuffled ps. induction ordered as [|[k p] ordered IH]; intros sh ps; [done|].
  simpl. by rewrite IH, obj_update_keys.
Qed.

Lemma assign_loop_Forall (Q : string * Player -> Prop) ordered shuffled ps :
  (forall k r p, Q (k, p) -> Q (k, set_roleKey r p)) ->
  Forall Q ps -> Forall Q (assign_loop ordered shuffled ps).
Proof.
  intros HQ. revert shuffled ps.
  induction ordered as [|[k p] ordered IH]; intros sh ps Hps; [done|].
  simpl. apply IH.
  apply (obj_update_Forall Q (fun _ : string => set_roleKey (head sh))); [|exact ""|done].
  intros ? _ ?. apply HQ.
Qed.

Lemma update_all_Forall {V} (Q : string * V -> Prop) (f : V -> V) ks (o : Obj V) :
  (forall k v, Q (k, v) -> Q (k, f v)) ->
  Forall Q o -> Forall Q (update_all f ks o).
Proof.
  intros HQ. revert o. induction ks as [|k ks IH]; intros o Ho; [done|].
  change (update_all f (k :: ks) o) with (update_all f ks (obj_update k f o)).
  apply IH. apply (obj_update_Forall Q (fun _ : string => f)); [|exact ""|done].
  intros ? _ ?. apply HQ.
Qed.

Lemma clear_roles_update_all ps :
  clear_roles ps = update_all (set_roleKey None) (Object_keys ps) ps.
Proof. done. Qed.

Lemma config_get_set c k k' v :
  config_get (config_set c k v) k' = if decide (k = k') then v else config_get c k'.
Proof. by destruct k, k'. Qed.

Lemma wf_init room_id : wf_state (state (init room_id)).
Proof.
  split; simpl; [constructor | constructor |].
  intros []; vm_compute; split; discriminate.
Qed.

Lemma truthy_true s : truthy s = true <-> s <> "".
Proof. unfold truthy. destruct (decide (s = "")); split; congruence. Qed.

Lemma wf_dispatch env msg sender srv :
  wf_state (state srv) -> wf_state (state (fst (dispatch env msg sender srv))).
Proof.
  intros [Hk Hi Hq]. unfold dispatch.
  destruct msg as [n c|n|b|k cnt| | |]; simpl; try by split.
  - destruct (truthy c) eqn:Hc; [|by split]. apply truthy_true in Hc. simpl.
    read_cases c srv; [by split | by split |].
    split; simpl; [| |done].
    + rewrite obj_set_fresh, fmap_app by done. apply NoDup_app. split; [done|].
      split; [|apply NoDup_singleton].
      intros x Hx Hxc%list_elem_of_singleton. subst x. by apply obj_get_None in Hg.
    + rewrite obj_set_fresh by done. apply Forall_app. split; [done|].
      by repeat constructor.
  - destruct (getSenderPlayer srv sender) as [pl sent].
    destruct (not_host pl); [by split|]. split; simpl; [done | done |].
    intros r. rewrite config_get_set. destruct (decide (k = r)); [lia | apply Hq].
  - destruct (getSenderPlayer srv sender) as [pl sent].
    destruct (not_host pl); [by split|].
    destruct (negb _); [by split|]. split; simpl; [| |done].
    + by rewrite assign_loop_keys.
    + by apply assign_loop_Forall.
  - destruct (getSenderPlayer srv sender) as [pl sent].
    destruct (not_host pl); [by split|]. split; simpl; [| |done].
    + by rewrite clear_roles_update_all, update_all_keys.
    + by apply update_all_Forall.
Qed.

Lemma wf_step ev srv : wf_state (state srv) -> wf_state (state (fst (step ev srv))).
Proof.
  intros Hwf. destruct ev as [conn|conn|env parsed sender]; simpl; try done.
  unfold onMessage. destruct (parsed ≫= clientMessageSchema); [|done].
  by apply wf_dispatch.
Qed.

Lemma reachable_wf srv : reachable srv -> wf_state (state srv).
Proof. induction 1; [apply wf_init | by apply wf_step]. Qed.

Lemma reachable_run evs srv : reachable srv -> reachable (run evs srv).
Proof.
  revert srv. induction evs as [|ev evs IH]; intros srv H; [done|].
  apply IH. by constructor.
Qed.

(** ** The example room *)

Lemma ex_lobby_reachable : reachable ex_lobby.
Proof. apply reachable_run, reachable_init. Qed.

Lemma ex_assigned_reachable : reachable ex_assigned.
Proof. apply reachable_run, ex_lobby_reachable. Qed.

Lemma ex_env_unit_draws t : unit_draws (ex_env t).
Proof. intros n. unfold Qle, Qlt. simpl. lia. Qed.

Lemma ex_lobby_host : bound_to_host ex_lobby "c1".
Proof.
  eexists _, _. split; [vm_compute; reflexivity|]. split; [done|].
  split; [vm_compute; reflexivity | reflexivity].
Qed.

Lemma ex_assigned_host : bound_to_host ex_assigned "c1".
Proof.
  eexists _, _. split; [vm_compute; reflexivity|]. split; [done|].
  split; [vm_compute; reflexivity | reflexivity].
Qed.

(** ** The state projector *)

Lemma fold_obj_set_fresh {V W} (g : string * V -> W) (es : Obj V) (acc : Obj W) :
  NoDup (acc.*1 ++ es.*1) ->
  fold_left (fun acc e => obj_set e.1 (g e) acc) es acc
  = acc ++ ((fun e => (e.1, g e)) <$> es).
Proof.
  revert acc. induction es as [|e es IH]; intros acc Hnd; simpl.
  - by rewrite app_nil_r.
  - rewrite obj_set_fresh.
    + rewrite IH; [by rewrite <-(assoc (++)) |].
      rewrite fmap_app, <-(assoc (++)). exact Hnd.
    + apply obj_get_None. apply NoDup_app in Hnd as (_ & Hd & _).
      intros Hin. apply (Hd _ Hin). left.
Qed.

Lemma personalize_players s v :
  NoDup (players s).*1 ->
  players (personalizeStateFor s v)
  = (fun e => (e.1, redact v e)) <$> Object_entries (players s).
Proof.
  intros Hnd. unfold personalizeStateFor. simpl.
  rewrite fold_obj_set_fresh; [done|]. simpl.
  change (NoDup (Object_keys (players s))). by rewrite Object_keys_perm.
Qed.

Lemma obj_get_fmap_NoDup {V W} (g : string * V -> W) (es : Obj V) k x :
  NoDup es.*1 -> (k, x) ∈ es ->
  obj_get k ((fun e => (e.1, g e)) <$> es) = Some (g (k, x)).
Proof.
  intros Hnd Hin. apply obj_get_NoDup.
  - by rewrite <-list_fmap_compose.
  - apply list_elem_of_fmap. by exists (k, x).
Qed.

Lemma personalize_get s v p pl :
  NoDup (players s).*1 -> obj_get p (players s) = Some pl ->
  obj_get p (players (personalizeStateFor s v)) = Some (redact v (p, pl)).
Proof.
  intros Hnd Hg. rewrite personalize_players by done.
  apply obj_get_fmap_NoDup.
  - change (NoDup (Object_keys (players s))). by rewrite Object_keys_perm.
  - rewrite Object_entries_perm. by apply obj_get_elem.
Qed.

Lemma personalize_get_None s v p :
  NoDup (players s).*1 -> obj_get p (players s) = None ->
  obj_get p (players (personalizeStateFor s v)) = None.
Proof.
  intros Hnd Hg. rewrite personalize_players by done.
  apply obj_get_None. rewrite <-list_fmap_compose.
  change (p ∉ Object_keys (players s)). rewrite Object_keys_perm.
  by apply obj_get_None.
Qed.

(** C1. In every state a room can reach, the projection for viewer [v]
    keeps each participant [p]; the copy has no [roleKey] when [p] is not
    the viewer, has the stored [roleKey] when [p] is the viewer, and has no
    [roleKey] for anybody when there is no viewer. *)
Theorem personalizeStateFor_redacts srv v p pl :
  reachable srv ->
  obj_get p (players (state srv)) = Some pl ->
  exists pl',
    obj_get p (players (personalizeStateFor (state srv) v)) = Some pl'
    /\ (v <> Some p -> roleKey pl' = None)
    /\ (v = Some p -> roleKey pl' = roleKey pl)
    /\ (v = None -> roleKey pl' = None).
Proof.
  intros [Hnd Hids _]%reachable_wf Hg.
  exists (redact v (p, pl)). split; [by apply personalize_get|].
  assert (Hp : p <> "").
  { apply obj_get_elem in Hg. rewrite Forall_forall in Hids.
    by destruct (Hids _ Hg). }
  unfold redact. simpl. destruct v as [v|]; [|done].
  destruct (truthy v) eqn:Hv; simpl.
  - case_bool_decide; subst; (split; [|split]); intros; simpl; congruence.
  - apply not_true_iff_false in Hv. rewrite truthy_true in Hv.
    split; [done|]. split; [|done]. intros [= ->]. by destruct Hv.
Qed.

(** The dealt room of the example, seen by [p2]: [p2]'s own role is kept
    and the host's is hidden. *)
Lemma personalizeStateFor_redacts_witness :
  reachable ex_assigned
  /\ (roleKey <$> obj_get "p2" (players (state ex_assigned))) = Some (Some B)
  /\ (roleKey <$> obj_get "p2" (players (personalizeStateFor (state ex_assigned) (Some "p2"))))
     = Some (Some B)
  /\ (roleKey <$> obj_get "p1" (players (personalizeStateFor (state ex_assigned) (Some "p2"))))
     = Some None.
Proof.
  split; [exact ex_assigned_reachable|]. split; [vm_compute; reflexivity|].
  destruct (personalizeStateFor_redacts ex_assigned (Some "p2") "p2"
              (mkPlayer "p2" "nora montgomery" false 1001 (Some B))
              ex_assigned_reachable) as (pl2 & Hg2 & _ & Hown & _);
    [vm_compute; reflexivity|].
  destruct (personalizeStateFor_redacts ex_assigned (Some "p2") "p1"
              (mkPlayer "p1" "nora montgomery" true 1000 (Some A))
              ex_assigned_reachable) as (pl1 & Hg1 & Hother & _ & _);
    [vm_compute; reflexivity|].
  rewrite Hg2, Hg1. simpl. rewrite (Hown eq_refl), Hother; [done | congruence].
Defined.

(** ** Host-only commands *)

Lemma getSenderPlayer_host srv conn :
  bound_to_host srv conn ->
  exists h, getSenderPlayer srv conn = (Own h, []) /\ isHost h = true.
Proof.
  intros (c & h & Hb & Hc & Hg & Hh). exists h. split; [|done].
  unfold getSenderPlayer, obj_read. rewrite Hb.
  apply truthy_true in Hc. by rewrite Hc, Hg.
Qed.

Lemma getSenderPlayer_unbound srv conn :
  connectionIdToClientId srv !! conn = None ->
  getSenderPlayer srv conn = (Undefined, [(conn, ErrorMsg "please join first")]).
Proof. intros H. unfold getSenderPlayer. by rewrite H. Qed.

(** ** Dealing the roles *)

Lemma orderedPlayers_perm ps : orderedPlayers ps ≡ₚ ps.
Proof. unfold orderedPlayers. by rewrite sort_by_perm, Object_entries_perm. Qed.


Lemma assign_loop_get_other ordered shuffled ps k :
  k ∉ ordered.*1 ->
  obj_get k (assign_loop ordered shuffled ps) = obj_get k ps.
Proof.
  revert shuffled ps. induction ordered as [|[a p] ordered IH]; intros sh ps Hk; [done|].
  simpl. csimpl in Hk. apply not_elem_of_cons in Hk as [Hka Hk].
  rewrite IH by done. rewrite obj_get_update. by rewrite decide_False.
Qed.

Lemma assign_loop_get ordered shuffled ps i k p :
  NoDup ordered.*1 -> ordered !! i = Some (k, p) ->
  obj_get k (assign_loop ordered shuffled ps)
  = set_roleKey (shuffled !! i) <$> obj_get k ps.
Proof.
  revert shuffled ps i.
  induction ordered as [|[a q] ordered IH]; intros sh ps i Hnd Hi; [done|].
  csimpl in Hnd. apply NoDup_cons in Hnd as [Ha Hnd]. simpl.
  destruct i as [|i]; simpl in Hi.
  - injection Hi as -> ->. rewrite assign_loop_get_other by done.
    rewrite obj_get_update, decide_True by done. by destruct sh.
  - rewrite (IH _ _ i) by done. rewrite obj_get_update.
    assert (a <> k) as Hak.
    { intros ->. apply Ha. apply list_elem_of_fmap. exists (k, p).
      split; [done|]. by eapply list_elem_of_lookup_2. }
    rewrite decide_False by done. by destruct sh.
Qed.

Lemma buildDeck_total config :
  (forall r, 0 <= config_get config r) ->
  Z.of_nat (length (buildDeck config)) = totalRoles config.
Proof.
  intros Hq. rewrite buildDeck_length, totalRoles_unfold.
  pose proof (Hq A). pose proof (Hq B). pose proof (Hq C). pose proof (Hq D).
  simpl in *. lia.
Qed.



(** ** Joining *)

Lemma schema_join n c :
  (String.length n <= 64)%nat -> c <> "" ->
  clientMessageSchema (wire (Join n c)) = Some (Join n c).
Proof.
  intros Hn Hc. unfold clientMessageSchema, wire. simpl.
  apply Nat.leb_le in Hn. rewrite Hn.
  destruct c as [|a c]; [congruence | reflexivity].
Qed.

Lemma step_join j srv :
  valid_join j ->
  step (join_event j) srv
  = dispatch (join_env j) (Join (join_name j) (join_clientId j)) (join_conn j) srv.
Proof.
  intros [Hn Hc]. unfold join_event, step, onMessage.
  change (Some ?v ≫= clientMessageSchema) with (clientMessageSchema v).
  by rewrite schema_join.
Qed.

Lemma run_cons ev evs srv : run (ev :: evs) srv = run evs (step ev srv).1.
Proof. done. Qed.

Lemma host_first_init late env n c conn room_id :
  c <> "" -> inherited c = false ->
  host_first late c (now env) (state (dispatch env (Join n c) conn (init room_id)).1).
Proof.
  intros Hc%truthy_true Hinh. unfold dispatch, obj_read. rewrite Hc. simpl.
  rewrite Hinh. eexists _, []. simpl. by repeat split.
Qed.

Lemma host_first_join (late : Z -> Prop) env n c conn c0 t0 srv :
  late (now env) ->
  host_first late c0 t0 (state srv) ->
  host_first late c0 t0 (state (dispatch env (Join n c) conn srv).1).
Proof.
  intros Ht (h & rest & Hps & Hid & Hh & Hj & Hhost & Hrest).
  unfold dispatch. destruct (truthy c) eqn:Hc; simpl; [|by exists h, rest].
  read_cases c srv; simpl; [by exists h, rest | by exists h, rest |].
  rewrite Object_keys_length, obj_set_fresh by done. rewrite Hps. simpl.
  eexists h, (rest ++ [_]). repeat split; try done.
  apply Forall_app. split; [done|]. by repeat constructor.
Qed.

Lemma host_first_run (late : Z -> Prop) c0 t0 js srv :
  Forall valid_join js ->
  Forall (fun j => late (now (join_env j))) js ->
  host_first late c0 t0 (state srv) ->
  host_first late c0 t0 (state (run (join_event <$> js) srv)).
Proof.
  revert srv. induction js as [|j js IH]; intros srv Hv Ht Hinv; [done|].
  apply Forall_cons in Hv as [Hj Hv]. apply Forall_cons in Ht as [Htj Ht].
  rewrite fmap_cons, run_cons, step_join by done.
  apply IH; [done | done |]. by apply host_first_join.
Qed.

(** C3, at three inputs. After two joins of which the second reads an
    earlier clock, the host is the first joiner and a participant has a
    smaller [joinedAt] than the host. After a join under the name of an
    inherited member of [Object.prototype] nobody is stored and there is no
    host. After no join at all there is no participant either. *)
Lemma join_host_not_always_earliest :
  (Forall valid_join ex_backwards
   /\ hostId (state (run (join_event <$> ex_backwards) (init "room"))) = Some "p1"
   /\ (joinedAt <$> obj_get "p1" (players (state (run (join_event <$> ex_backwards)
                                                      (init "room"))))) = Some 1000
   /\ (joinedAt <$> obj_get "p2" (players (state (run (join_event <$> ex_backwards)
                                                      (init "room"))))) = Some 999)
  /\ (Forall valid_join ex_inherited
      /\ players (state (run (join_event <$> ex_inherited) (init "room"))) = []
      /\ hostId (state (run (join_event <$> ex_inherited) (init "room"))) = None)
  /\ players (state (run [] (init "room"))) = [].
Proof.
  split; [|split; [|reflexivity]].
  - split; [repeat constructor; simpl; (lia || discriminate)|].
    split; [vm_compute; reflexivity|]. split; vm_compute; reflexivity.
  - split; [repeat constructor; simpl; (lia || discriminate)|].
    split; vm_compute; reflexivity.
Qed.

(** C3, amended. A fresh room receives one or more join commands, none
    under the name of an inherited member of [Object.prototype]. Then the
    participant created by the first command is stored first, under the id
    of that command; it is a host, it is the only host, and [hostId] is its
    id. If moreover the clock never went backwards from one join to the
    next, no participant has a smaller [joinedAt]. *)
Theorem join_elects_first_host room_id j0 js :
  Forall valid_join (j0 :: js) ->
  Forall (fun j => inherited (join_clientId j) = false) (j0 :: js) ->
  let s := state (run (join_event <$> j0 :: js) (init room_id)) in
  exists h rest,
    players s = (join_clientId j0, h) :: rest
    /\ id h = join_clientId j0
    /\ isHost h = true
    /\ hostId s = Some (id h)
    /\ filter (fun e : string * Player => isHost e.2 = true) (players s)
       = [(join_clientId j0, h)]
    /\ (Sorted Z.le ((fun j => now (join_env j)) <$> j0 :: js) ->
        Forall (fun e : string * Player => joinedAt h <= joinedAt e.2) (players s)).
Proof.
  intros Hv Hplain s.
  apply Forall_cons in Hv as [[Hn0 Hc0] Hv].
  apply Forall_cons in Hplain as [Hp0 _].
  assert (Hinv : forall late : Z -> Prop,
             Forall (fun j => late (now (join_env j))) js ->
             host_first late (join_clientId j0) (now (join_env j0)) s).
  { intros late Hlate. subst s. rewrite fmap_cons, run_cons, step_join by done.
    apply host_first_run; [done | done | by apply host_first_init]. }
  destruct (Hinv (fun _ => True)) as (h & rest & Hps & Hid & Hh & Hj & Hhost & Hrest).
  { by apply Forall_forall. }
  exists h, rest. rewrite Hid. split; [done|]. split; [done|]. split; [done|].
  split; [done|]. split.
  - rewrite Hps. rewrite filter_cons_True by done. f_equal.
    clear -Hrest. induction Hrest as [|e rest [He _] _ IH]; [done|].
    rewrite filter_cons_False; [done | congruence].
  - intros Hclock.
    apply Sorted_StronglySorted in Hclock; [|intros x y z; apply Z.le_trans].
    rewrite fmap_cons in Hclock. apply StronglySorted_inv in Hclock as [_ Hclock].
    rewrite Forall_fmap in Hclock.
    destruct (Hinv (Z.le (now (join_env j0))) Hclock)
      as (h' & rest' & Hps' & _ & _ & Hj' & _ & Hrest').
    rewrite Hps in Hps'. injection Hps' as <- <-. rewrite Hps.
    constructor; [simpl; lia|].
    eapply Forall_impl; [exact Hrest'|]. simpl. intros e [_ He]. lia.
Qed.

Lemma join_elects_first_host_witness :
  Forall valid_join ex_joins
  /\ Forall (fun j => inherited (join_clientId j) = false) ex_joins
  /\ Sorted Z.le ((fun j => now (join_env j)) <$> ex_joins)
  /\ hostId (state (run (join_event <$> ex_joins) (init "room"))) = Some "p1".
Proof.
  assert (Hv : Forall valid_join ex_joins).
  { repeat constructor; simpl; (lia || discriminate). }
  assert (Hp : Forall (fun j => inherited (join_clientId j) = false) ex_joins).
  { repeat constructor. }
  assert (Hs : Sorted Z.le ((fun j => now (join_env j)) <$> ex_joins)).
  { repeat constructor. simpl. lia. }
  split; [exact Hv|]. split; [exact Hp|]. split; [exact Hs|].
  destruct (join_elects_first_host "room" _ _ Hv Hp)
    as (h & rest & _ & Hid & _ & Hhost & _).
  etransitivity; [exact Hhost|]. f_equal. exact Hid.
Defined.

(** ** The schema in front of the handlers *)

Lemma schema_setRoleCount k n :
  clientMessageSchema (wire (SetRoleCount k n))
  = if (0 <=? n) && (n <=? 99) then Some (SetRoleCount k n) else None.
Proof. by destruct k. Qed.

Lemma schema_setName n :
  (String.length n <= 64)%nat -> clientMessageSchema (wire (SetName n)) = Some (SetName n).
Proof.
  intros Hn%Nat.leb_le. unfold clientMessageSchema, wire. simpl. by rewrite Hn.
Qed.

Lemma onMessage_schema env v msg sender srv :
  clientMessageSchema v = Some msg ->
  onMessage env (Some v) sender srv = dispatch env msg sender srv.
Proof. intros H. unfold onMessage. simpl. by rewrite H. Qed.

(** The schema reads back every command it accepts from the JSON value the
    client sends for it. *)
Lemma schema_wire m : schema_accepts m -> clientMessageSchema (wire m) = Some m.
Proof.
  destruct m as [n c|n|b|k cnt| | |]; simpl schema_accepts; try done.
  - intros [Hn Hc]. by apply schema_join.
  - apply schema_setName.
  - intros Hr. rewrite schema_setRoleCount.
    assert ((0 <=? cnt) && (cnt <=? 99) = true) as ->; [|done].
    apply andb_true_iff. rewrite !Z.leb_le. lia.
Qed.

Lemma onMessage_wire env m sender srv :
  schema_accepts m ->
  onMessage env (Some (wire m)) sender srv = dispatch env m sender srv.
Proof. intros H. by apply onMessage_schema, schema_wire. Qed.

(** C4, at the input of the claim: the host of the example room sends
    [setRoleCount] for role A with count 150. The message is refused as
    invalid, nothing changes, and the quota of A is not 99. *)
Lemma setRoleCount_150_is_rejected :
  bound_to_host ex_lobby "c1"
  /\ onMessage (ex_env 1004) (Some (wire (SetRoleCount A 150))) "c1" ex_lobby
     = (ex_lobby, [("c1", ErrorMsg "invalid message")])
  /\ config_get
       (roleConfig
          (state (onMessage (ex_env 1004) (Some (wire (SetRoleCount A 150))) "c1"
                            ex_lobby).1)) A
     <> 99.
Proof.
  split; [exact ex_lobby_host|]. split; [reflexivity|]. vm_compute. discriminate.
Qed.

(** C4, amended. A [setRoleCount] message whose count is outside [0, 99] is
    refused by the schema: the sender gets "invalid message" and nothing
    changes. A count inside the range, sent by the host, becomes the quota
    of that role unchanged, the other quotas and the rest of the state stay
    as they were, and the new state is broadcast. *)
Theorem setRoleCount_range env sender srv k n :
  let res := onMessage env (Some (wire (SetRoleCount k n))) sender srv in
  (n < 0 \/ 99 < n -> res = (srv, [(sender, ErrorMsg "invalid message")]))
  /\ (0 <= n <= 99 -> bound_to_host srv sender ->
      roleConfig (state res.1) = config_set (roleConfig (state srv)) k n
      /\ config_get (roleConfig (state res.1)) k = n
      /\ players (state res.1) = players (state srv)
      /\ status (state res.1) = status (state srv)
      /\ res.2 = broadcastState res.1).
Proof.
  intros res. subst res. unfold onMessage.
  change (Some ?v ≫= clientMessageSchema) with (clientMessageSchema v).
  rewrite schema_setRoleCount. split.
  - intros Hout.
    assert ((0 <=? n) && (n <=? 99) = false) as ->; [|done].
    apply andb_false_iff. rewrite Z.leb_gt, Z.leb_gt. lia.
  - intros Hin (h & Hgs & Hh)%getSenderPlayer_host.
    assert ((0 <=? n) && (n <=? 99) = true) as ->.
    { apply andb_true_iff. rewrite !Z.leb_le. lia. }
    unfold dispatch. rewrite Hgs. simpl. rewrite Hh. simpl.
    replace (0 `max` (99 `min` n)) with n by lia.
    rewrite config_get_set, decide_True by done. done.
Qed.

Lemma setRoleCount_range_witness :
  (99 < 150
   /\ onMessage (ex_env 1004) (Some (wire (SetRoleCount A 150))) "c1" ex_lobby
      = (ex_lobby, [("c1", ErrorMsg "invalid message")]))
  /\ (0 <= 3 <= 99 /\ bound_to_host ex_lobby "c1"
      /\ config_get
           (roleConfig (state (onMessage (ex_env 1004) (Some (wire (SetRoleCount A 3)))
                                 "c1" ex_lobby).1)) A = 3).
Proof.
  split.
  - split; [lia|].
    apply (setRoleCount_range (ex_env 1004) "c1" ex_lobby A 150). right. lia.
  - split; [lia|]. split; [exact ex_lobby_host|].
    apply (setRoleCount_range (ex_env 1004) "c1" ex_lobby A 3);
      [lia | exact ex_lobby_host].
Defined.

(** ** Connections without an identity *)

(** C5, at a connection of the example room that never joined: its
    [requestState] is answered with the fully redacted state and with no
    error. *)
Lemma requestState_unbound_is_answered :
  connectionIdToClientId (onConnect "c3" ex_lobby).1 !! "c3" = None
  /\ dispatch (ex_env 1004) RequestState "c3" (onConnect "c3" ex_lobby).1
     = ((onConnect "c3" ex_lobby).1,
        [("c3", StateMsg (personalizeStateFor (state ex_lobby) None))])
  /\ Forall (fun x : Sent => is_error x.2 = false)
            (dispatch (ex_env 1004) RequestState "c3" (onConnect "c3" ex_lobby).1).2.
Proof.
  split; [vm_compute; reflexivity|]. split; [reflexivity|]. by repeat constructor.
Qed.

(** C5, amended. On a connection bound to no identity, [setRoleCount],
    [assignRoles] and [reset] fail: the caller, and nobody else, is sent
    "please join first" and then the host-only error of the command, and
    nothing changes. [requestState] on such a connection is no error: the
    caller, and nobody else, is sent the state with every role removed, and
    nothing changes. *)
Theorem unbound_connection_commands env sender srv :
  connectionIdToClientId srv !! sender = None ->
  (forall k n,
     dispatch env (SetRoleCount k n) sender srv
     = (srv, [(sender, ErrorMsg "please join first");
              (sender, ErrorMsg "only host can edit roles")]))
  /\ dispatch env AssignRoles sender srv
     = (srv, [(sender, ErrorMsg "please join first");
              (sender, ErrorMsg "only host can assign roles")])
  /\ dispatch env Reset sender srv
     = (srv, [(sender, ErrorMsg "please join first");
              (sender, ErrorMsg "only host can reset")])
  /\ dispatch env RequestState sender srv
     = (srv, [(sender, StateMsg (personalizeStateFor (state srv) None))]).
Proof.
  intros Hnone. pose proof (getSenderPlayer_unbound srv sender Hnone) as Hgs.
  repeat split; intros; unfold dispatch; rewrite ?Hgs; try done.
  unfold sendStateTo. by rewrite Hnone.
Qed.

Lemma unbound_connection_commands_witness :
  connectionIdToClientId ex_lobby !! "c3" = None
  /\ dispatch (ex_env 1004) Reset "c3" ex_lobby
     = (ex_lobby, [("c3", ErrorMsg "please join first");
                   ("c3", ErrorMsg "only host can reset")]).
Proof.
  assert (H : connectionIdToClientId ex_lobby !! "c3" = None)
    by (vm_compute; reflexivity).
  split; [exact H|].
  apply (unbound_connection_commands (ex_env 1004) "c3" ex_lobby H).
Defined.

(** ** Errors *)

Lemma broadcastState_no_error srv :
  Forall (fun x : Sent => is_error x.2 = false) (broadcastState srv).
Proof.
  unfold broadcastState. induction (connections srv) as [|c cs IH]; simpl;
    by constructor.
Qed.

Lemma getSenderPlayer_sent srv conn :
  Forall (fun x : Sent => x.1 = conn /\ is_error x.2 = true) (getSenderPlayer srv conn).2
  /\ (not_host (getSenderPlayer srv conn).1 = false -> (getSenderPlayer srv conn).2 = []).
Proof.
  unfold getSenderPlayer. destruct (connectionIdToClientId srv !! conn) as [c|].
  - destruct (truthy c); simpl; split; try done; by repeat constructor.
  - simpl. split; [by repeat constructor | done].
Qed.

(** A handler either fails, leaving the server as it was and sending only
    errors to the sender, or succeeds and sends no error at all. *)
Lemma dispatch_outcome env msg sender srv :
  let res := dispatch env msg sender srv in
  (res.1 = srv /\ Forall (fun x : Sent => x.1 = sender /\ is_error x.2 = true) res.2)
  \/ Forall (fun x : Sent => is_error x.2 = false) res.2.
Proof.
  destruct (getSenderPlayer_sent srv sender) as [Hsent Hnil].
  unfold dispatch.
  destruct msg as [n c|n|b|k cnt| | |]; simpl.
  - destruct (truthy c); simpl.
    + right. apply broadcastState_no_error.
    + left. split; [done | by repeat constructor].
  - left. split; [done | by repeat constructor].
  - left. split; [done | by repeat constructor].
  - destruct (getSenderPlayer srv sender) as [pl sent]. simpl in *.
    destruct (not_host pl); simpl.
    + left. split; [done|]. apply Forall_app. split; [done | by repeat constructor].
    + right. rewrite Hnil by done. apply broadcastState_no_error.
  - destruct (getSenderPlayer srv sender) as [pl sent]. simpl in *.
    destruct (not_host pl); simpl.
    + left. split; [done|]. apply Forall_app. split; [done | by repeat constructor].
    + destruct (negb _); simpl.
      * left. split; [done|]. apply Forall_app. split; [done | by repeat constructor].
      * right. rewrite Hnil by done. apply broadcastState_no_error.
  - destruct (getSenderPlayer srv sender) as [pl sent]. simpl in *.
    destruct (not_host pl); simpl.
    + left. split; [done|]. apply Forall_app. split; [done | by repeat constructor].
    + right. rewrite Hnil by done. apply broadcastState_no_error.
  - right. by repeat constructor.
Qed.

(** C6. Whenever handling an inbound message (unparsable, refused by the
    schema, or refused by a handler) sends an error, the server, and with it
    the room state, is left exactly as it was, and every message sent is an
    error addressed to the sender: nothing reaches another connection. *)
Theorem error_leaves_room_untouched env parsed sender srv :
  let res := onMessage env parsed sender srv in
  (exists x : Sent, x ∈ res.2 /\ is_error x.2 = true) ->
  res.1 = srv
  /\ state res.1 = state srv
  /\ Forall (fun x : Sent => x.1 = sender /\ is_error x.2 = true) res.2.
Proof.
  intros res (x & Hx & Herr). subst res.
  assert (H : (onMessage env parsed sender srv).1 = srv
              /\ Forall (fun x : Sent => x.1 = sender /\ is_error x.2 = true)
                        (onMessage env parsed sender srv).2).
  { unfold onMessage in *. destruct (parsed ≫= clientMessageSchema) as [msg|].
    - destruct (dispatch_outcome env msg sender srv) as [Hfail|Hok]; [done|].
      rewrite Forall_forall in Hok. specialize (Hok x Hx). congruence.
    - simpl. split; [done | by repeat constructor]. }
  destruct H as [H1 H2]. by rewrite H1.
Qed.

Lemma error_leaves_room_untouched_witness :
  (exists x : Sent,
      x ∈ (onMessage (ex_env 1004) (Some (wire AssignRoles)) "c2" ex_lobby).2
      /\ is_error x.2 = true)
  /\ (onMessage (ex_env 1004) (Some (wire AssignRoles)) "c2" ex_lobby).1 = ex_lobby.
Proof.
  assert (H : exists x : Sent,
             x ∈ (onMessage (ex_env 1004) (Some (wire AssignRoles)) "c2" ex_lobby).2
             /\ is_error x.2 = true).
  { exists ("c2", ErrorMsg "only host can assign roles"). split; [|done].
    vm_compute. left. }
  split; [exact H|].
  apply (error_leaves_room_untouched (ex_env 1004) (Some (wire AssignRoles)) "c2"
           ex_lobby H).
Defined.

(** ** Joining again *)

Lemma obj_get_set_eq {V} k (v : V) o : obj_get k (obj_set k v o) = Some v.
Proof.
  induction o as [|[a w] o IH]; simpl.
  - by rewrite decide_True.
  - destruct (decide (a = k)); simpl; [by rewrite decide_True|].
    by rewrite decide_False.
Qed.

(** A join under the id of an existing participant changes nothing in the
    room state. *)
Lemma join_existing_noop env n c conn srv p :
  obj_get c (players (state srv)) = Some p ->
  state (dispatch env (Join n c) conn srv).1 = state srv.
Proof.
  intros Hg. unfold dispatch, obj_read. destruct (truthy c); simpl; [|done].
  by rewrite Hg.
Qed.

(** Nor does a join under the name of an inherited member. *)
Lemma join_inherited_noop env n c conn srv :
  inherited c = true ->
  state (dispatch env (Join n c) conn srv).1 = state srv.
Proof.
  intros Hinh. unfold dispatch, obj_read. destruct (truthy c); simpl; [|done].
  destruct (obj_get c (players (state srv))); [done|]. by rewrite Hinh.
Qed.

Lemma join_creates env n c conn srv :
  c <> "" -> inherited c = false ->
  is_Some (obj_get c (players (state (dispatch env (Join n c) conn srv).1))).
Proof.
  intros Hc%truthy_true Hinh. unfold dispatch. rewrite Hc. simpl.
  read_cases c srv; simpl; [by rewrite Hg | congruence |].
  by rewrite obj_get_set_eq.
Qed.

(** C7. Two joins in a row under the same client id, whatever the
    connections, the names sent, the clock and the status of the room: the
    room state after the second is the room state after the first, so every
    field of every participant is as the first join left it and no
    participant is added. *)
Theorem join_twice_idempotent env1 env2 n1 n2 c conn1 conn2 srv :
  let srv1 := (dispatch env1 (Join n1 c) conn1 srv).1 in
  let srv2 := (dispatch env2 (Join n2 c) conn2 srv1).1 in
  state srv2 = state srv1
  /\ players (state srv2) = players (state srv1)
  /\ obj_get c (players (state srv2)) = obj_get c (players (state srv1)).
Proof.
  intros srv1 srv2.
  assert (H : state srv2 = state srv1); [|by rewrite H].
  subst srv2. destruct (decide (c = "")) as [->|Hc].
  - done.
  - destruct (inherited c) eqn:Hinh.
    + by apply join_inherited_noop.
    + destruct (join_creates env1 n1 c conn1 srv Hc Hinh) as [p Hp].
      by eapply join_existing_noop.
Qed.

(** ** Reset *)

Lemma set_roleKey_idemp r p : set_roleKey r (set_roleKey r p) = set_roleKey r p.
Proof. done. Qed.

Lemma clear_roles_keys ps : (clear_roles ps).*1 = ps.*1.
Proof. apply update_all_keys. Qed.

Lemma clear_roles_get k ps :
  obj_get k (clear_roles ps) = set_roleKey None <$> obj_get k ps.
Proof.
  unfold clear_roles. rewrite obj_get_update_all by apply set_roleKey_idemp.
  destruct (decide (k ∈ Object_keys ps)) as [|Hk]; [done|].
  rewrite elem_of_Object_keys in Hk. apply obj_get_None in Hk. by rewrite Hk.
Qed.

Lemma clear_roles_idemp ps : clear_roles (clear_roles ps) = clear_roles ps.
Proof.
  unfold clear_roles at 1 3. apply update_all_idemp; [apply set_roleKey_idemp|].
  intros k. by rewrite !elem_of_Object_keys, clear_roles_keys.
Qed.

(** What [reset] does when the host sends it. *)
Lemma reset_by_host env sender srv :
  bound_to_host srv sender ->
  let s := state srv in
  let srv' := {| state := {| roomId := roomId s; hostId := hostId s; status := lobby;
                             players := clear_roles (players s);
                             roleConfig := roleConfig s; assignedAt := None;
                             rolesCatalog_of := rolesCatalog_of s |};
                 connections := connections srv;
                 connectionIdToClientId := connectionIdToClientId srv |} in
  dispatch env Reset sender srv = (srv', broadcastState srv').
Proof.
  intros (h & Hgs & Hh)%getSenderPlayer_host. unfold dispatch.
  rewrite Hgs. simpl. by rewrite Hh.
Qed.

Lemma reset_keeps_host env sender srv :
  bound_to_host srv sender -> bound_to_host (dispatch env Reset sender srv).1 sender.
Proof.
  intros Hhost. rewrite (reset_by_host env sender srv Hhost).
  destruct Hhost as (c & h & Hb & Hc & Hg & Hh).
  exists c, (set_roleKey None h). simpl. rewrite clear_roles_get, Hg. done.
Qed.

(** C8. The host resets a room whose roles have been dealt. The status is
    [lobby] again, [assignedAt] is cleared, [hostId], the quotas and the set
    of participant ids are as before, every participant keeps its id, name,
    [joinedAt] and host flag and has no role, and the state is broadcast. *)
Theorem reset_returns_to_lobby env sender srv :
  bound_to_host srv sender ->
  status (state srv) = assigned ->
  let s := state srv in
  let res := dispatch env Reset sender srv in
  let s' := state res.1 in
  status s' = lobby
  /\ assignedAt s' = None
  /\ hostId s' = hostId s
  /\ roleConfig s' = roleConfig s
  /\ (players s').*1 = (players s).*1
  /\ (forall k p, obj_get k (players s) = Some p ->
        exists p', obj_get k (players s') = Some p'
                   /\ id p' = id p /\ name p' = name p
                   /\ joinedAt p' = joinedAt p /\ isHost p' = isHost p
                   /\ roleKey p' = None)
  /\ (forall k p', obj_get k (players s') = Some p' -> roleKey p' = None)
  /\ res.2 = broadcastState res.1.
Proof.
  intros Hhost _ s res s'. subst s' res.
  rewrite (reset_by_host env sender srv Hhost). simpl. fold s.
  repeat split; try done.
  - apply clear_roles_keys.
  - intros k p Hg. exists (set_roleKey None p). by rewrite clear_roles_get, Hg.
  - intros k p'. rewrite clear_roles_get.
    destruct (obj_get k (players s)); simpl; [|done]. by intros [= <-].
Qed.

Lemma reset_returns_to_lobby_witness :
  bound_to_host ex_assigned "c1"
  /\ status (state ex_assigned) = assigned
  /\ status (state (dispatch (ex_env 1005) Reset "c1" ex_assigned).1) = lobby
  /\ (players (state (dispatch (ex_env 1005) Reset "c1" ex_assigned).1)).*1
     = (players (state ex_assigned)).*1.
Proof.
  assert (Hs : status (state ex_assigned) = assigned) by (vm_compute; reflexivity).
  split; [exact ex_assigned_host|]. split; [exact Hs|].
  destruct (reset_returns_to_lobby (ex_env 1005) "c1" ex_assigned ex_assigned_host Hs)
    as (H1 & _ & _ & _ & H5 & _).
  split; [exact H1 | exact H5].
Defined.

(** C10. The host resets a room in any status. The command is carried out
    (the new state is broadcast, no error is sent); afterwards the status is
    [lobby], [assignedAt] is cleared and no participant has a role. A second
    reset by the host is carried out too and leaves the room state exactly
    as the first one left it. *)
Theorem reset_idempotent env1 env2 sender srv :
  bound_to_host srv sender ->
  let res1 := dispatch env1 Reset sender srv in
  let res2 := dispatch env2 Reset sender res1.1 in
  status (state res1.1) = lobby
  /\ assignedAt (state res1.1) = None
  /\ (forall k p, obj_get k (players (state res1.1)) = Some p -> roleKey p = None)
  /\ res1.2 = broadcastState res1.1
  /\ res2.2 = broadcastState res2.1
  /\ state res2.1 = state res1.1.
Proof.
  intros Hhost res1 res2. subst res2 res1.
  pose proof (reset_keeps_host env1 sender srv Hhost) as Hhost'.
  rewrite (reset_by_host env2 sender _ Hhost').
  rewrite (reset_by_host env1 sender srv Hhost). simpl.
  repeat split; try done.
  - intros k p. rewrite clear_roles_get.
    destruct (obj_get k (players (state srv))); simpl; [|done]. by intros [= <-].
  - by rewrite clear_roles_idemp.
Qed.

Lemma reset_idempotent_witness :
  bound_to_host ex_lobby "c1"
  /\ status (state ex_lobby) = lobby
  /\ state (dispatch (ex_env 1006) Reset "c1"
              (dispatch (ex_env 1005) Reset "c1" ex_lobby).1).1
     = state (dispatch (ex_env 1005) Reset "c1" ex_lobby).1.
Proof.
  split; [exact ex_lobby_host|]. split; [vm_compute; reflexivity|].
  apply (reset_idempotent (ex_env 1005) (ex_env 1006) "c1" ex_lobby ex_lobby_host).
Defined.

(** ** Display names *)

Lemma assign_loop_name ordered shuffled ps k :
  name <$> obj_get k (assign_loop ordered shuffled ps) = name <$> obj_get k ps.
Proof.
  revert shuffled ps. induction ordered as [|[a q] ordered IH]; intros sh ps; [done|].
  simpl. rewrite IH, obj_get_update.
  destruct (decide (a = k)); [|done]. by destruct (obj_get k ps).
Qed.

Lemma name_of_dispatch env msg sender srv k x :
  name_of k (state srv) = Some x ->
  name_of k (state (dispatch env msg sender srv).1) = Some x.
Proof.
  unfold name_of. intros Hk. unfold dispatch.
  destruct msg as [n c|n|b|r cnt| | |]; simpl; try done.
  - destruct (truthy c); simpl; [|done].
    read_cases c srv; simpl; [done | done |].
    rewrite obj_set_fresh, obj_get_app by done.
    by destruct (obj_get k (players (state srv))).
  - destruct (getSenderPlayer srv sender) as [pl sent].
    by destruct (not_host pl).
  - destruct (getSenderPlayer srv sender) as [pl sent].
    destruct (not_host pl); [done|]. destruct (negb _); [done|]. simpl.
    by rewrite assign_loop_name.
  - destruct (getSenderPlayer srv sender) as [pl sent].
    destruct (not_host pl); [done|]. simpl. rewrite clear_roles_get.
    by destruct (obj_get k (players (state srv))).
Qed.

Lemma name_of_step ev srv k x :
  name_of k (state srv) = Some x -> name_of k (state (step ev srv).1) = Some x.
Proof.
  intros Hk. destruct ev as [conn|conn|env parsed sender]; simpl; try done.
  unfold onMessage. destruct (parsed ≫= clientMessageSchema); [|done].
  by apply name_of_dispatch.
Qed.

Lemma name_of_run evs srv k x :
  name_of k (state srv) = Some x -> name_of k (state (run evs srv)) = Some x.
Proof.
  revert srv. induction evs as [|ev evs IH]; intros srv Hk; [done|].
  rewrite run_cons. by apply IH, name_of_step.
Qed.

(** The only way a join stores a participant under a key that was free. *)
Lemma join_created env n c conn srv p :
  obj_get c (players (state srv)) = None ->
  obj_get c (players (state (dispatch env (Join n c) conn srv).1)) = Some p ->
  c <> "" /\ inherited c = false
  /\ p = mkPlayer c (generateOldTimeyName env)
                  (bool_decide (length (players (state srv)) = 0%nat)) (now env) None.
Proof.
  intros Hnew. unfold dispatch, obj_read.
  destruct (truthy c) eqn:Hc; simpl; [|congruence].
  apply truthy_true in Hc. rewrite Hnew.
  destruct (inherited c); simpl; [congruence|].
  rewrite obj_get_set_eq, Object_keys_length. by intros [= <-].
Qed.

(** C9. Whenever a join creates a participant (somebody is stored under the
    id [c] after it and nobody was before), the stored name is the one the
    server generates, whatever name the message carries; after any further
    events (connects, closes, inbound messages of any kind) the stored name
    is still that one. The messages [setName] and [setReady] pass the
    schema, and handling them only sends "unknown message type" to the
    sender and changes nothing. *)
Theorem names_are_server_owned env n c conn srv p evs env' n' b conn' srv' :
  obj_get c (players (state srv)) = None ->
  obj_get c (players (state (dispatch env (Join n c) conn srv).1)) = Some p ->
  (String.length n' <= 64)%nat ->
  let srv1 := (dispatch env (Join n c) conn srv).1 in
  name p = generateOldTimeyName env
  /\ name_of c (state srv1) = Some (generateOldTimeyName env)
  /\ name_of c (state (run evs srv1)) = Some (generateOldTimeyName env)
  /\ clientMessageSchema (wire (SetName n')) = Some (SetName n')
  /\ clientMessageSchema (wire (SetReady b)) = Some (SetReady b)
  /\ onMessage env' (Some (wire (SetName n'))) conn' srv'
     = (srv', [(conn', ErrorMsg "unknown message type")])
  /\ onMessage env' (Some (wire (SetReady b))) conn' srv'
     = (srv', [(conn', ErrorMsg "unknown message type")]).
Proof.
  intros Hnew Hcreated Hn' srv1.
  destruct (join_created env n c conn srv p Hnew Hcreated) as (_ & _ & Hp).
  assert (H0 : name p = generateOldTimeyName env) by (by rewrite Hp).
  assert (H1 : name_of c (state srv1) = Some (generateOldTimeyName env)).
  { subst srv1. unfold name_of. rewrite Hcreated. simpl. by rewrite H0. }
  split; [done|]. split; [done|]. split; [by apply name_of_run|].
  split; [by apply schema_setName|]. split; [done|].
  split.
  - by rewrite (onMessage_schema _ _ (SetName n')) by by apply schema_setName.
  - done.
Qed.

Lemma names_are_server_owned_witness :
  obj_get "p3" (players (state ex_lobby)) = None
  /\ obj_get "p3" (players (state (dispatch (ex_env 1005) (Join "carol" "p3") "c3"
                                            ex_lobby).1))
     = Some (mkPlayer "p3" "nora montgomery" false 1005 None)
  /\ (String.length "carol" <= 64)%nat
  /\ name_of "p3"
       (state (run [ Message (ex_env 1006) (Some (wire (SetName "carol"))) "c3";
                     Message (ex_env 1007) (Some (wire AssignRoles)) "c1";
                     Message (ex_env 1008) (Some (wire Reset)) "c1" ]
                   (dispatch (ex_env 1005) (Join "carol" "p3") "c3" ex_lobby).1))
     = Some "nora montgomery".
Proof.
  assert (H1 : obj_get "p3" (players (state ex_lobby)) = None)
    by (vm_compute; reflexivity).
  assert (H2 : obj_get "p3" (players (state (dispatch (ex_env 1005) (Join "carol" "p3")
                                                     "c3" ex_lobby).1))
               = Some (mkPlayer "p3" "nora montgomery" false 1005 None))
    by (vm_compute; reflexivity).
  assert (H3 : (String.length "carol" <= 64)%nat) by (vm_compute; lia).
  split; [exact H1|]. split; [exact H2|]. split; [exact H3|].
  apply (names_are_server_owned (ex_env 1005) "carol" "p3" "c3" ex_lobby _
           [ Message (ex_env 1006) (Some (wire (SetName "carol"))) "c3";
             Message (ex_env 1007) (Some (wire AssignRoles)) "c1";
             Message (ex_env 1008) (Some (wire Reset)) "c1" ]
           (ex_env 1006) "carol" true "c3" ex_lobby H1 H2 H3).
Defined.

(** * Further properties of the code *)

(** ** The deck *)

Lemma filter_replicate_eq (k x : RoleKey) n :
  filter (fun y => y = k) (replicate n x) = if decide (x = k) then replicate n x else [].
Proof.
  induction n as [|n IH]; simpl; [by destruct (decide (x = k))|].
  destruct (decide (x = k)) as [Hx|Hx].
  - rewrite filter_cons_True by done. by f_equal.
  - by rewrite filter_cons_False.
Qed.

Lemma StronglySorted_replicate_app (k : RoleKey) n l :
  Forall (fun y => (role_index k <= role_index y)%nat) l ->
  StronglySorted (fun a b => (role_index a <= role_index b)%nat) l ->
  StronglySorted (fun a b => (role_index a <= role_index b)%nat) (replicate n k ++ l).
Proof.
  intros Hl Hs. induction n as [|n IH]; simpl; [done|].
  constructor; [done|]. apply Forall_app. split; [|done].
  apply Forall_forall. by intros y ->%elem_of_replicate_inv.
Qed.

(** X1. The deck holds every role key as often as its quota says (not at
    all when the quota is negative), grouped in the order of [roleKeys]. *)
Theorem buildDeck_contents config :
  (forall k, length (filter (fun y => y = k) (buildDeck config))
             = Z.to_nat (config_get config k))
  /\ StronglySorted (fun a b => (role_index a <= role_index b)%nat) (buildDeck config).
Proof.
  rewrite buildDeck_unfold. split.
  - intros k. rewrite !filter_app, !filter_replicate_eq, !length_app.
    destruct k; simpl; rewrite ?length_replicate; simpl; lia.
  - assert (Hrep : forall k k' n, (role_index k <= role_index k')%nat ->
                     Forall (fun y => (role_index k <= role_index y)%nat) (replicate n k')).
    { intros k k' n Hk. apply Forall_forall. by intros y ->%elem_of_replicate_inv. }
    apply StronglySorted_replicate_app;
      [repeat (apply Forall_app; split); apply Hrep; simpl; lia|].
    apply StronglySorted_replicate_app;
      [repeat (apply Forall_app; split); apply Hrep; simpl; lia|].
    apply StronglySorted_replicate_app; [apply Hrep; simpl; lia|].
    rewrite <-(app_nil_r (replicate _ D)).
    apply StronglySorted_replicate_app; constructor.
Qed.

(** X2. [totalRoles] adds the quotas as they are, the deck ignores negative
    ones: the deck is never shorter than [totalRoles], and the two agree
    exactly when no quota is negative. *)
Theorem totalRoles_vs_deck config :
  totalRoles config <= Z.of_nat (length (buildDeck config))
  /\ (totalRoles config = Z.of_nat (length (buildDeck config))
      <-> forall k, 0 <= config_get config k).
Proof.
  rewrite buildDeck_length, totalRoles_unfold. split; [lia|]. split.
  - intros H k. destruct k; simpl; lia.
  - intros H. pose proof (H A). pose proof (H B). pose proof (H C). pose proof (H D).
    simpl in *. lia.
Qed.

(** ** The shuffle *)

(** X3. With a random source that keeps the contract of [Math.random]
    (every draw in [0, 1)), each swap at position [i] takes its partner among
    [0 .. i], and the shuffled list is a rearrangement of the input, of the
    same length; a list of at most one element comes back as it is. *)
Theorem shuffle_rearranges {T : Type} (l : list T) rng :
  (forall n, (0 <= rng n)%Q /\ (rng n < 1)%Q) ->
  (forall call i, 0 <= floor_scaled (rng call) (i + 1) <= Z.of_nat i)
  /\ shuffle l rng ≡ₚ l
  /\ length (shuffle l rng) = length l
  /\ ((length l <= 1)%nat -> shuffle l rng = l).
Proof.
  intros Hrng. split.
  - intros call i. destruct (Hrng call) as [H0 H1].
    pose proof (floor_scaled_range (rng call) (i + 1) H0 H1). lia.
  - split; [apply shuffle_perm|]. split; [by rewrite shuffle_perm|].
    intros Hl. unfold shuffle. by replace (length l - 1)%nat with 0%nat by lia.
Qed.

Lemma shuffle_rearranges_witness :
  (forall n : nat, (0 <= 1 # 2)%Q /\ (1 # 2 < 1)%Q)
  /\ shuffle [A; B; C; D] (fun _ => 1 # 2) = [A; D; B; C]
  /\ [A; D; B; C] ≡ₚ [A; B; C; D].
Proof.
  assert (H : forall n : nat, (0 <= 1 # 2)%Q /\ (1 # 2 < 1)%Q).
  { intros _. split; unfold Qle, Qlt; simpl; lia. }
  split; [exact H|]. split; [vm_compute; reflexivity|].
  exact (proj1 (proj2 (shuffle_rearranges [A; B; C; D] (fun _ => 1 # 2) H))).
Defined.

Lemma shuffle_loop_ext {T : Type} rng1 rng2 i call (arr : list T) :
  (forall c, (call <= c)%nat -> rng1 c = rng2 c) ->
  shuffle_loop rng1 i call arr = shuffle_loop rng2 i call arr.
Proof.
  revert call arr. induction i as [|i IH]; intros call arr Hext; simpl; [done|].
  rewrite (Hext call) by lia. apply IH. intros c Hc. apply Hext. lia.
Qed.

(** The draw [j / n] makes [Math.floor(r * n)] equal to [j]. *)
Lemma floor_scaled_exact j n :
  (0 < n)%nat -> floor_scaled (Z.of_nat j # Pos.of_nat n) n = Z.of_nat j.
Proof.
  intros Hn. unfold floor_scaled, Qmult, inject_Z, Qfloor. simpl.
  rewrite Pos.mul_1_r.
  replace (Z.pos (Pos.of_nat n)) with (Z.of_nat n) by lia.
  apply Z.div_mul. lia.
Qed.

Lemma fraction_unit j n :
  (j < n)%nat ->
  (0 <= Z.of_nat j # Pos.of_nat n)%Q /\ (Z.of_nat j # Pos.of_nat n < 1)%Q.
Proof. intros Hj. unfold Qle, Qlt. simpl. lia. Qed.

Lemma swap_app_l {T : Type} (a suffix : list T) i j :
  (i < length a)%nat -> (j < length a)%nat ->
  swap (a ++ suffix) i j = swap a i j ++ suffix.
Proof.
  intros Hi Hj. unfold swap. rewrite !lookup_app_l by done.
  destruct (a !! i) eqn:Ei; [|by apply lookup_ge_None in Ei; lia].
  destruct (a !! j) eqn:Ej; [|by apply lookup_ge_None in Ej; lia].
  rewrite insert_app_l by done. rewrite insert_app_l; [done|].
  by rewrite length_insert.
Qed.

Lemma swap_lookup_r {T : Type} (a : list T) i j x y :
  a !! i = Some x -> a !! j = Some y -> swap a i j !! i = Some y.
Proof.
  intros Hi Hj. unfold swap. rewrite Hi, Hj.
  pose proof (lookup_lt_Some _ _ _ Hi).
  destruct (decide (j = i)) as [->|Hne].
  - rewrite list_lookup_insert_eq by (by rewrite length_insert). congruence.
  - rewrite list_lookup_insert_ne by done. by rewrite list_lookup_insert_eq.
Qed.

Lemma split_last {T : Type} (b : list T) i y :
  length b = S i -> b !! i = Some y -> b = take i b ++ [y].
Proof.
  intros Hlen Hy. rewrite <-(take_S_r _ _ _ Hy).
  by rewrite take_ge by lia.
Qed.

Lemma shuffle_loop_reaches {T : Type} i call (a t suffix : list T) :
  length a = S i -> a ≡ₚ t ->
  exists rng,
    (forall n, (0 <= rng n)%Q /\ (rng n < 1)%Q)
    /\ shuffle_loop rng i call (a ++ suffix) = t ++ suffix.
Proof.
  revert call a t suffix. induction i as [|i IH]; intros call a t suffix Hlen Hperm.
  - exists (fun _ => 0%Q). split; [intros n; unfold Qle, Qlt; simpl; lia|].
    simpl. destruct a as [|x [|??]]; try done.
    by apply Permutation_singleton_l in Hperm as ->.
  - assert (Hlt : length t = S (S i)) by (by rewrite <-Hperm).
    destruct (lookup_lt_is_Some_2 t (S i)) as [y Hy]; [lia|].
    pose proof (split_last t (S i) y Hlt Hy) as Ht.
    assert (Hin : y ∈ a).
    { rewrite Hperm. by eapply list_elem_of_lookup_2. }
    apply list_elem_of_lookup in Hin as [j Hj].
    pose proof (lookup_lt_Some _ _ _ Hj) as Hjlt.
    destruct (lookup_lt_is_Some_2 a (S i)) as [x Hx]; [lia|].
    set (b := swap a (S i) j).
    assert (Hb : b !! S i = Some y) by (by eapply swap_lookup_r).
    assert (Hblen : length b = S (S i)).
    { unfold b. by rewrite swap_perm. }
    pose proof (split_last b (S i) y Hblen Hb) as Hbs.
    assert (Hpre : take (S i) b ≡ₚ take (S i) t).
    { apply (inj (fun l => l ++ [y])). rewrite <-Hbs, <-Ht.
      unfold b. by rewrite swap_perm. }
    destruct (IH (S call) (take (S i) b) (take (S i) t) (y :: suffix))
      as (rng & Hunit & Hloop); [rewrite length_take; lia | done |].
    exists (fun c => if decide (c = call) then (Z.of_nat j # Pos.of_nat (S i + 1))%Q
                     else rng c).
    split.
    + intros n. destruct (decide (n = call)); [|apply Hunit].
      apply fraction_unit. lia.
    + simpl. rewrite decide_True by done.
      rewrite floor_scaled_exact by lia. rewrite Nat2Z.id.
      rewrite swap_app_l by lia. fold b.
      rewrite (shuffle_loop_ext _ rng).
      * rewrite Hbs at 1. rewrite <-(assoc (++)). simpl. rewrite Hloop.
        rewrite Ht at 2. by rewrite <-(assoc (++)).
      * intros c Hc. rewrite decide_False; [done | lia].
Qed.

(** X4. The shuffle can produce every arrangement of its input: for each
    rearrangement there is a random source, with all its draws in [0, 1),
    under which [shuffle] returns exactly that arrangement. *)
Theorem shuffle_reaches_every_order {T : Type} (l l' : list T) :
  l ≡ₚ l' ->
  exists rng,
    (forall n, (0 <= rng n)%Q /\ (rng n < 1)%Q) /\ shuffle l rng = l'.
Proof.
  intros Hperm. destruct l as [|x l].
  - apply Permutation_nil_l in Hperm. subst l'.
    exists (fun _ => 0%Q). split; [intros n; unfold Qle, Qlt; simpl; lia|].
    reflexivity.
  - destruct (shuffle_loop_reaches (length l) 0 (x :: l) l' [] eq_refl Hperm)
      as (rng & Hunit & Hloop).
    exists rng. split; [done|]. unfold shuffle. simpl length.
    rewrite Nat.sub_succ, Nat.sub_0_r. by rewrite !app_nil_r in Hloop.
Qed.

Lemma shuffle_reaches_every_order_witness :
  [A; B] ≡ₚ [B; A]
  /\ exists rng, (forall n, (0 <= rng n)%Q /\ (rng n < 1)%Q) /\ shuffle [A; B] rng = [B; A].
Proof.
  assert (H : [A; B] ≡ₚ [B; A]) by apply perm_swap.
  split; [exact H|]. exact (shuffle_reaches_every_order [A; B] [B; A] H).
Defined.

(** ** Generated names *)

Lemma js_index_in_range {T : Type} (arr : list T) z :
  0 <= z < Z.of_nat (length arr) -> exists x, js_index arr z = Some x /\ x ∈ arr.
Proof.
  intros Hz. unfold js_index.
  destruct (z <? 0) eqn:E; [apply Z.ltb_lt in E; lia|].
  destruct (lookup_lt_is_Some_2 arr (Z.to_nat z)) as [x Hx]; [lia|].
  exists x. split; [done|]. by eapply list_elem_of_lookup_2.
Qed.

(** X5. With the draws of [Math.random] in [0, 1), a generated name is a
    first name of the first table, a space, and a last name of the second
    table; neither index ever falls outside its table. *)
Theorem generated_name_well_formed env :
  unit_draws env ->
  exists f l,
    f ∈ first_names /\ l ∈ last_names
    /\ generateOldTimeyName env = (f ++ " " ++ l)%string.
Proof.
  intros Hdraws. unfold generateOldTimeyName.
  destruct (Hdraws 0%nat) as [H0 H0'], (Hdraws 1%nat) as [H1 H1'].
  destruct (js_index_in_range first_names
              (floor_scaled (random env 0) (length first_names))) as (f & Hf & Hfin).
  { apply floor_scaled_range; [done | done | simpl; lia]. }
  destruct (js_index_in_range last_names
              (floor_scaled (random env 1) (length last_names))) as (l & Hl & Hlin).
  { apply floor_scaled_range; [done | done | simpl; lia]. }
  exists f, l. by rewrite Hf, Hl.
Qed.

Lemma generated_name_well_formed_witness :
  unit_draws (ex_env 1000)
  /\ exists f l, f ∈ first_names /\ l ∈ last_names
                 /\ generateOldTimeyName (ex_env 1000) = (f ++ " " ++ l)%string.
Proof.
  split; [exact (ex_env_unit_draws 1000)|].
  exact (generated_name_well_formed (ex_env 1000) (ex_env_unit_draws 1000)).
Defined.

(** ** Impact scores *)

(** X6. An impact score lies between 0 and 6; it is 0 exactly when the role
    is not global, is not the viewer's own self-affecting role and does not
    target the viewer; for a viewer without a role only a global role
    scores, and it scores 1. *)
Theorem computeImpactScore_range viewer role :
  0 <= computeImpactScore viewer role <= 6
  /\ (computeImpactScore viewer role = 0 <->
      flag_set (global (affects role)) = false
      /\ (flag_set (self (affects role)) = false \/ viewer <> Some (key role))
      /\ match viewer, targetsRoleKeys (affects role) with
         | Some v, Some targets => v ∉ targets
         | _, _ => True
         end)
  /\ (viewer = None ->
      computeImpactScore viewer role
      = if flag_set (global (affects role)) then 1 else 0).
Proof.
  unfold computeImpactScore.
  destruct (flag_set (global (affects role))), (flag_set (self (affects role)));
    destruct viewer as [v|]; simpl;
    try destruct (targetsRoleKeys (affects role)) as [ts|];
    repeat case_bool_decide; simpl;
    (split; [lia|]); (split; [|by (intros; try done)]);
    (split; [intros ?; try lia; repeat split; auto; try congruence
            | intros (? & [?|?] & ?); try done; try congruence]);
    right; congruence.
Qed.

(** X7. On the four roles of the catalog the score tells its reason: it is
    3 exactly when the role targets the viewer's role, 2 exactly when it is
    the viewer's own self-affecting role, 1 exactly when it is global, and
    0 otherwise. *)
Theorem catalog_scores viewer role :
  role ∈ rolesCatalog ->
  let sc := computeImpactScore viewer role in
  (sc = 0 \/ sc = 1 \/ sc = 2 \/ sc = 3)
  /\ (sc = 3 <-> match viewer, targetsRoleKeys (affects role) with
                 | Some v, Some targets => v ∈ targets
                 | _, _ => False
                 end)
  /\ (sc = 2 <-> flag_set (self (affects role)) = true /\ viewer = Some (key role))
  /\ (sc = 1 <-> flag_set (global (affects role)) = true).
Proof.
  unfold rolesCatalog. rewrite !elem_of_cons, elem_of_nil.
  intros [->|[->|[->|[->|[]]]]]; destruct viewer as [[]|]; cbv zeta;
    unfold computeImpactScore; simpl;
    repeat case_bool_decide; simpl;
    repeat split; try (intros; lia); try (intros; tauto); try (intros; congruence);
    rewrite ?elem_of_cons, ?elem_of_nil; try (intuition congruence); try (intuition lia).
Qed.

Lemma catalog_scores_witness :
  mkRoleSpec B "Role B"
    "you target players with role A. placeholder description for v1."
    (mkAffects None (Some [A]) None) ∈ rolesCatalog
  /\ computeImpactScore (Some A)
       (mkRoleSpec B "Role B"
          "you target players with role A. placeholder description for v1."
          (mkAffects None (Some [A]) None)) = 3.
Proof.
  assert (H : mkRoleSpec B "Role B"
                "you target players with role A. placeholder description for v1."
                (mkAffects None (Some [A]) None) ∈ rolesCatalog).
  { unfold rolesCatalog. right. left. }
  split; [exact H|].
  destruct (catalog_scores (Some A) _ H) as (_ & H3 & _).
  apply H3. simpl. left.
Defined.

(** ** The next host *)

Lemma Object_values_perm {V : Type} (o : Obj V) : Object_values o ≡ₚ o.*2.
Proof. unfold Object_values. apply fmap_Permutation, Object_entries_perm. Qed.

(** X8. [findNextHostId] answers [null] exactly in a room without
    participants; otherwise it answers the id of a stored participant whose
    [joinedAt] no other participant undercuts. *)
Theorem findNextHostId_earliest srv :
  (findNextHostId srv = None <-> players (state srv) = [])
  /\ (forall h, findNextHostId srv = Some h ->
        exists k p, (k, p) ∈ players (state srv) /\ id p = h
                    /\ forall k' p', (k', p') ∈ players (state srv) ->
                                     joinedAt p <= joinedAt p').
Proof.
  unfold findNextHostId.
  set (remaining := Object_values (players (state srv))).
  set (sorted := sort_by (fun a b => joinedAt a <=? joinedAt b) remaining).
  assert (Hperm : sorted ≡ₚ (players (state srv)).*2).
  { unfold sorted. rewrite sort_by_perm. apply Object_values_perm. }
  assert (Hlen : length remaining = length (players (state srv))).
  { unfold remaining. by rewrite Object_values_perm, length_fmap. }
  assert (Hsorted : StronglySorted (fun a b => (joinedAt a <=? joinedAt b) = true) sorted).
  { apply sort_by_sorted.
    - intros x y H. apply Z.leb_gt in H. apply Z.leb_le. lia.
    - intros x y z H1%Z.leb_le H2%Z.leb_le. apply Z.leb_le. lia. }
  rewrite Hlen. clearbody sorted remaining. case_bool_decide as Hempty.
  - apply nil_length_inv in Hempty. split; [done|]. by intros h.
  - destruct sorted as [|p rest].
    { apply Permutation_nil_l in Hperm. symmetry in Hperm. apply fmap_nil_inv in Hperm.
      by rewrite Hperm in Hempty. }
    split.
    + split; [done|]. intros Hnil. by rewrite Hnil in Hempty.
    + intros h Hh. simpl in Hh. injection Hh as <-.
      assert (Hp : p ∈ (players (state srv)).*2) by (rewrite <-Hperm; left).
      apply list_elem_of_fmap in Hp as ([k q] & -> & Hin). simpl in *.
      exists k, q. split; [done|]. split; [done|].
      intros k' p' Hin'.
      assert (Hp' : p' ∈ q :: rest).
      { rewrite Hperm. apply list_elem_of_fmap. by exists (k', p'). }
      apply StronglySorted_inv in Hsorted as [_ Hall].
      apply elem_of_cons in Hp' as [->|Hp']; [lia|].
      rewrite Forall_forall in Hall. apply Z.leb_le. by apply Hall.
Qed.

(** ** The debugging summary *)

(** X9. A request other than GET is answered 405, in every room. A GET is
    answered with a summary that carries the room id, the status, the quotas
    and their sum [totalRoles], and lists every stored participant once, in
    the order of [Object.values] (id, name and host flag, never a role). In a
    reachable room [totalRoles] is the size of the deck, and the host's
    [assignRoles] is carried out without an error exactly when [totalRoles]
    equals the number of listed players. *)
Theorem onRequest_summary method srv :
  (method <> "GET" -> onRequest method srv = TextResponse "method not allowed" 405)
  /\ exists body,
       onRequest "GET" srv = JsonResponse body
       /\ summary_roomId body = roomId (state srv)
       /\ summary_status body = status (state srv)
       /\ summary_roleConfig body = roleConfig (state srv)
       /\ summary_totalRoles body = totalRoles (roleConfig (state srv))
       /\ summary_players body
          = (fun p => mkPlayerSummary (id p) (name p) (isHost p))
            <$> Object_values (players (state srv))
       /\ summary_players body
          ≡ₚ (fun e : string * Player => mkPlayerSummary (id e.2) (name e.2) (isHost e.2))
             <$> players (state srv)
       /\ (reachable srv ->
           summary_totalRoles body
           = Z.of_nat (length (buildDeck (roleConfig (state srv))))
           /\ forall env sender, bound_to_host srv sender ->
               (summary_totalRoles body = Z.of_nat (length (summary_players body))
                <-> Forall (fun x : Sent => is_error x.2 = false)
                           (dispatch env AssignRoles sender srv).2)).
Proof.
  split.
  { intros Hm. unfold onRequest. by rewrite decide_False. }
  eexists. split; [reflexivity|]. simpl.
  do 5 (split; [done|]). split.
  { change (map ?f ?l) with (f <$> l). rewrite Object_values_perm.
    by rewrite <-list_fmap_compose. }
  intros Hreach. pose proof (reachable_wf srv Hreach) as [Hnd Hids Hq].
  assert (Htot : totalRoles (roleConfig (state srv))
                 = Z.of_nat (length (buildDeck (roleConfig (state srv))))).
  { symmetry. apply buildDeck_total. intros r. apply Hq. }
  split; [done|]. intros env sender Hhost.
  destruct (getSenderPlayer_host srv sender Hhost) as (h & Hgs & Hh).
  assert (Hn : length (map (fun p => mkPlayerSummary (id p) (name p) (isHost p))
                          (Object_values (players (state srv))))
               = length (players (state srv))).
  { by rewrite length_map, Object_values_perm, length_fmap. }
  rewrite Hn, Htot. unfold dispatch. rewrite Hgs. simpl not_host. rewrite Hh.
  simpl negb at 1. cbv iota. rewrite Object_keys_length.
  destruct (length (buildDeck (roleConfig (state srv)))
            =? length (players (state srv)))%nat eqn:E; simpl.
  - apply Nat.eqb_eq in E. split; [intros _; apply broadcastState_no_error|].
    intros _. lia.
  - apply Nat.eqb_neq in E. split.
    + intros Heq. exfalso. apply E. lia.
    + intros Hall. apply Forall_cons in Hall as [Hbad _]. done.
Qed.

Lemma onRequest_summary_witness :
  "POST" <> "GET"
  /\ onRequest "POST" (init "room") = TextResponse "method not allowed" 405
  /\ onRequest "POST" ex_lobby = TextResponse "method not allowed" 405.
Proof.
  assert (H : "POST" <> "GET") by discriminate. split; [exact H|].
  split.
  - exact (proj1 (onRequest_summary "POST" (init "room")) H).
  - exact (proj1 (onRequest_summary "POST" ex_lobby) H).
Defined.

(** ** What the schema lets through *)

Lemma string_between_Some lo hi v s :
  string_between lo hi v = Some s ->
  v = Some (JString s)
  /\ match lo with Some n => (n <= String.length s)%nat | None => True end
  /\ match hi with Some n => (String.length s <= n)%nat | None => True end.
Proof.
  unfold string_between. destruct v as [[]|]; try done.
  destruct lo as [lo|], hi as [hi|]; simpl;
    repeat match goal with
           | |- context [(?a <=? ?b)%nat] => destruct (Nat.leb_spec a b)
           end; simpl; intros [= ->]; done.
Qed.

Lemma schema_sound v m : clientMessageSchema v = Some m -> schema_accepts m.
Proof.
  unfold clientMessageSchema. destruct v as [| | | | | |fields]; try done.
  destruct (obj_get "type" fields) as [[| | | |t| |]|]; try done.
  repeat case_decide.
  - destruct (string_between None _ _) as [n|] eqn:En; [|done].
    destruct (string_between (Some _) _ _) as [c|] eqn:Ec; [|done].
    intros [= <-].
    apply string_between_Some in En as (_ & _ & Hn).
    apply string_between_Some in Ec as (_ & Hc & _).
    simpl. split; [done|]. intros ->. simpl in Hc. lia.
  - destruct (string_between None _ _) as [n|] eqn:En; [|done].
    intros [= <-]. by apply string_between_Some in En as (_ & _ & Hn).
  - destruct (obj_get "ready" fields) as [[]|]; try done. by intros [= <-].
  - destruct (roleKeySchema _) as [k|]; [|done].
    destruct (obj_get "count" fields) as [[| |n| | | |]|]; try done.
    destruct (0 <=? n) eqn:E0, (n <=? 99) eqn:E1; try done.
    intros [= <-]. simpl. apply Z.leb_le in E0, E1. lia.
  - by intros [= <-].
  - by intros [= <-].
  - by intros [= <-].
  - done.
Qed.

(** X10. Every command the schema returns has the fields the handlers rely
    on: a join carries a non-empty client id and a name of at most 64
    characters, a role count lies in [0, 99]. Conversely the schema reads a
    command back from the JSON value a client sends for it exactly when the
    command has these fields. *)
Theorem schema_sound_and_complete :
  (forall v m, clientMessageSchema v = Some m -> schema_accepts m)
  /\ (forall m, clientMessageSchema (wire m) = Some m <-> schema_accepts m).
Proof.
  split; [exact schema_sound|]. intros m. split; [apply schema_sound | apply schema_wire].
Qed.

(** X11. A join message needs both of its fields: without a [name], or
    without a [clientId], the message is refused as invalid, the caller
    alone is told, and nothing changes. The join that the hook
    [useGameSocket] sends on open carries no [name]. *)
Theorem join_needs_name_and_clientId env fields sender srv :
  obj_get "type" fields = Some (JString "join") ->
  obj_get "name" fields = None \/ obj_get "clientId" fields = None ->
  onMessage env (Some (JObject fields)) sender srv
  = (srv, [(sender, ErrorMsg "invalid message")]).
Proof.
  intros Ht Hmiss. unfold onMessage.
  change (Some ?v ≫= clientMessageSchema) with (clientMessageSchema v).
  unfold clientMessageSchema. rewrite Ht. rewrite decide_True by done.
  destruct Hmiss as [-> | ->]; simpl; [done|].
  by destruct (string_between None _ _).
Qed.

Lemma join_needs_name_and_clientId_witness :
  obj_get "type" [("type", JString "join"); ("clientId", JString "p9")]
  = Some (JString "join")
  /\ obj_get "name" [("type", JString "join"); ("clientId", JString "p9")] = None
  /\ onMessage (ex_env 1004)
       (Some (JObject [("type", JString "join"); ("clientId", JString "p9")]))
       "c3" ex_lobby
     = (ex_lobby, [("c3", ErrorMsg "invalid message")]).
Proof.
  assert (H1 : obj_get "type" [("type", JString "join"); ("clientId", JString "p9")]
               = Some (JString "join")) by reflexivity.
  assert (H2 : obj_get "name" [("type", JString "join"); ("clientId", JString "p9")]
               = None) by reflexivity.
  split; [exact H1|]. split; [exact H2|].
  exact (join_needs_name_and_clientId (ex_env 1004) _ "c3" ex_lobby H1 (or_introl H2)).
Defined.

Lemma getSenderPlayer_texts srv conn :
  Forall (fun x : Sent => x = (conn, ErrorMsg "please join first"))
         (getSenderPlayer srv conn).2.
Proof.
  unfold getSenderPlayer. destruct (connectionIdToClientId srv !! conn) as [c|].
  - destruct (truthy c); simpl; by repeat constructor.
  - by repeat constructor.
Qed.

(** X12. Through [onMessage] the guard of the join handler never fires: no
    inbound message, valid or not, makes the server send "missing
    clientId". *)
Theorem missing_clientId_is_never_sent env parsed sender srv :
  Forall (fun x : Sent => x.2 <> ErrorMsg "missing clientId")
         (onMessage env parsed sender srv).2.
Proof.
  unfold onMessage.
  destruct (parsed ≫= clientMessageSchema) as [msg|] eqn:Hm;
    [|by repeat constructor].
  assert (Hacc : schema_accepts msg).
  { destruct parsed as [v|]; [|done]. simpl in Hm. by apply (schema_sound v). }
  assert (Hstate : forall srv', Forall (fun x : Sent => x.2 <> ErrorMsg "missing clientId")
                                       (broadcastState srv')).
  { intros srv'. eapply Forall_impl; [apply broadcastState_no_error|].
    intros [c m] Hx Heq. simpl in *. by subst m. }
  assert (Hsent : Forall (fun x : Sent => x.2 <> ErrorMsg "missing clientId")
                         (getSenderPlayer srv sender).2).
  { eapply Forall_impl; [apply getSenderPlayer_texts|]. by intros x ->. }
  unfold dispatch. destruct msg as [n c|n|b|k cnt| | |]; simpl.
  - destruct Hacc as [_ Hc%truthy_true]. rewrite Hc. apply Hstate.
  - by repeat constructor.
  - by repeat constructor.
  - destruct (getSenderPlayer srv sender) as [pl sent]. simpl in Hsent.
    destruct (not_host pl); simpl; apply Forall_app; split; try done;
      by repeat constructor.
  - destruct (getSenderPlayer srv sender) as [pl sent]. simpl in Hsent.
    destruct (not_host pl); simpl; [by apply Forall_app; split; [|repeat constructor]|].
    destruct (negb _); simpl; apply Forall_app; split; try done;
      by repeat constructor.
  - destruct (getSenderPlayer srv sender) as [pl sent]. simpl in Hsent.
    destruct (not_host pl); simpl; apply Forall_app; split; try done;
      by repeat constructor.
  - by repeat constructor.
Qed.

(** ** Participants stay *)

Lemma same_person_refl p : same_person p p.
Proof. by repeat split. Qed.

Lemma same_person_trans p q r : same_person p q -> same_person q r -> same_person p r.
Proof. intros (?&?&?&?) (?&?&?&?). repeat split; congruence. Qed.

Lemma same_person_set_roleKey r p : same_person p (set_roleKey r p).
Proof. by repeat split. Qed.

Lemma Forall2_same_refl (ps : Obj Player) :
  Forall2 (fun e e' : string * Player => e'.1 = e.1 /\ same_person e.2 e'.2) ps ps.
Proof. induction ps; constructor; [split; [done | apply same_person_refl] | done]. Qed.

Lemma obj_update_same k r (ps : Obj Player) :
  Forall2 (fun e e' : string * Player => e'.1 = e.1 /\ same_person e.2 e'.2)
          ps (obj_update k (set_roleKey r) ps).
Proof.
  induction ps as [|[a p] ps IH]; simpl; [constructor|].
  destruct (decide (a = k)).
  - constructor; [split; [done | apply same_person_set_roleKey]|].
    apply Forall2_same_refl.
  - constructor; [split; [done | apply same_person_refl] | done].
Qed.

Lemma Forall2_same_trans (ps qs rs : Obj Player) :
  Forall2 (fun e e' : string * Player => e'.1 = e.1 /\ same_person e.2 e'.2) ps qs ->
  Forall2 (fun e e' : string * Player => e'.1 = e.1 /\ same_person e.2 e'.2) qs rs ->
  Forall2 (fun e e' : string * Player => e'.1 = e.1 /\ same_person e.2 e'.2) ps rs.
Proof.
  intros H. revert rs. induction H as [|e e' ps qs [Hk Hp] _ IH]; intros rs Hr.
  - by apply Forall2_nil_inv_l in Hr as ->.
  - apply Forall2_cons_inv_l in Hr as (e'' & rs' & [Hk' Hp'] & Hr & ->).
    constructor; [|by apply IH].
    split; [congruence | by eapply same_person_trans].
Qed.

Lemma assign_loop_same ordered shuffled ps :
  Forall2 (fun e e' : string * Player => e'.1 = e.1 /\ same_person e.2 e'.2)
          ps (assign_loop ordered shuffled ps).
Proof.
  revert shuffled ps. induction ordered as [|[k p] ordered IH]; intros sh ps.
  - apply Forall2_same_refl.
  - simpl. eapply Forall2_same_trans; [apply obj_update_same | apply IH].
Qed.

Lemma clear_roles_same ps :
  Forall2 (fun e e' : string * Player => e'.1 = e.1 /\ same_person e.2 e'.2)
          ps (clear_roles ps).
Proof.
  unfold clear_roles. generalize (Object_keys ps) as ks. intros ks. revert ps.
  induction ks as [|k ks IH]; intros ps; [apply Forall2_same_refl|].
  change (update_all ?f (k :: ks) ps) with (update_all f ks (obj_update k f ps)).
  eapply Forall2_same_trans; [apply obj_update_same | apply IH].
Qed.

Lemma keeps_participants_refl ps : keeps_participants ps ps.
Proof. exists ps, []. split; [by rewrite app_nil_r | apply Forall2_same_refl]. Qed.

Lemma keeps_participants_same ps ps' :
  Forall2 (fun e e' : string * Player => e'.1 = e.1 /\ same_person e.2 e'.2) ps ps' ->
  keeps_participants ps ps'.
Proof. intros H. exists ps', []. by rewrite app_nil_r. Qed.

Lemma keeps_participants_trans ps qs rs :
  keeps_participants ps qs -> keeps_participants qs rs -> keeps_participants ps rs.
Proof.
  intros (k1 & x1 & -> & H1) (k2 & x2 & -> & H2).
  apply Forall2_app_inv_l in H2 as (k2a & k2b & H2a & H2b & ->).
  exists k2a, (k2b ++ x2). split; [by rewrite <-(assoc (++))|].
  by eapply Forall2_same_trans.
Qed.

Lemma keeps_participants_dispatch env msg sender srv :
  keeps_participants (players (state srv))
                     (players (state (dispatch env msg sender srv).1)).
Proof.
  unfold dispatch. destruct msg as [n c|n|b|k cnt| | |]; simpl;
    try apply keeps_participants_refl.
  - destruct (truthy c); simpl; [|apply keeps_participants_refl].
    read_cases c srv; simpl;
      [apply keeps_participants_refl | apply keeps_participants_refl |].
    rewrite obj_set_fresh by done. eexists _, _. split; [done|].
    apply Forall2_same_refl.
  - destruct (getSenderPlayer srv sender) as [pl sent].
    destruct (not_host pl); apply keeps_participants_refl.
  - destruct (getSenderPlayer srv sender) as [pl sent].
    destruct (not_host pl); [apply keeps_participants_refl|].
    destruct (negb _); simpl; [apply keeps_participants_refl|].
    apply keeps_participants_same, assign_loop_same.
  - destruct (getSenderPlayer srv sender) as [pl sent].
    destruct (not_host pl); simpl; [apply keeps_participants_refl|].
    apply keeps_participants_same, clear_roles_same.
Qed.

Lemma keeps_participants_step ev srv :
  keeps_participants (players (state srv)) (players (state (step ev srv).1)).
Proof.
  destruct ev as [conn|conn|env parsed sender]; simpl;
    try apply keeps_participants_refl.
  unfold onMessage. destruct (parsed ≫= clientMessageSchema);
    [apply keeps_participants_dispatch | apply keeps_participants_refl].
Qed.

Lemma keeps_participants_run evs srv :
  keeps_participants (players (state srv)) (players (state (run evs srv))).
Proof.
  revert srv. induction evs as [|ev evs IH]; intros srv;
    [apply keeps_participants_refl|].
  rewrite run_cons. eapply keeps_participants_trans;
    [apply keeps_participants_step | apply IH].
Qed.

Lemma keeps_participants_get ps ps' k p :
  keeps_participants ps ps' -> obj_get k ps = Some p ->
  exists p', obj_get k ps' = Some p' /\ same_person p p'.
Proof.
  intros (kept & extra & -> & H) Hg. rewrite obj_get_app.
  induction H as [|[a q] [a' q'] ps kept [Hk Hp] _ IH]; [done|].
  simpl in *. subst a'. destruct (decide (a = k)).
  - injection Hg as ->. by exists q'.
  - by apply IH.
Qed.

Lemma keeps_participants_length ps ps' :
  keeps_participants ps ps' -> (length ps <= length ps')%nat.
Proof.
  intros (kept & extra & -> & H). rewrite length_app, (Forall2_length _ _ _ H). lia.
Qed.

(** X13. No event removes or renames a participant: whoever is stored under
    a key is still stored under it after any sequence of connects, closes
    and inbound messages, with the same id, name, host flag and [joinedAt];
    the number of participants never goes down. *)
Theorem participants_persist evs srv k p :
  obj_get k (players (state srv)) = Some p ->
  (exists p', obj_get k (players (state (run evs srv))) = Some p' /\ same_person p p')
  /\ (length (players (state srv)) <= length (players (state (run evs srv))))%nat.
Proof.
  intros Hg. pose proof (keeps_participants_run evs srv) as H. split.
  - by eapply keeps_participants_get.
  - by apply keeps_participants_length.
Qed.

Lemma participants_persist_witness :
  obj_get "p2" (players (state ex_lobby))
  = Some (mkPlayer "p2" "nora montgomery" false 1001 None)
  /\ (length (players (state ex_lobby)) <= length (players (state ex_assigned)))%nat.
Proof.
  assert (H : obj_get "p2" (players (state ex_lobby))
              = Some (mkPlayer "p2" "nora montgomery" false 1001 None))
    by (vm_compute; reflexivity).
  split; [exact H|].
  exact (proj2 (participants_persist
                  [Message (ex_env 1004) (Some (wire AssignRoles)) "c1"]
                  ex_lobby "p2" _ H)).
Defined.

(** ** The host *)

Lemma one_host_same s s' :
  hostId s' = hostId s ->
  Forall2 (fun e e' : string * Player => e'.1 = e.1 /\ same_person e.2 e'.2)
          (players s) (players s') ->
  one_host s -> one_host s'.
Proof.
  unfold one_host. intros Hh H.
  destruct H as [|[k p] [k' p'] ps ps' [Hk (_ & _ & Hp & _)] Hrest]; [congruence|].
  simpl in *. subst k'. intros (Hid & Hhost & Hothers).
  split; [congruence|]. split; [congruence|].
  clear -Hrest Hothers. induction Hrest as [|e e' ps ps' [_ (_ & _ & He & _)] _ IH];
    [constructor|].
  apply Forall_cons in Hothers as [H1 H2]. constructor; [congruence | by apply IH].
Qed.

Lemma one_host_dispatch env msg sender srv :
  one_host (state srv) -> one_host (state (dispatch env msg sender srv).1).
Proof.
  intros Hinv. unfold dispatch. destruct msg as [n c|n|b|k cnt| | |]; simpl; try done.
  - destruct (truthy c); simpl; [|done].
    read_cases c srv; simpl; [done | done |].
    unfold one_host in *. simpl. rewrite Object_keys_length, obj_set_fresh by done.
    destruct (players (state srv)) as [|[k h] rest]; simpl; [done|].
    destruct Hinv as (Hid & Hh & Hrest). split; [done|]. split; [done|].
    apply Forall_app. split; [done | by repeat constructor].
  - destruct (getSenderPlayer srv sender) as [pl sent].
    by destruct (not_host pl).
  - destruct (getSenderPlayer srv sender) as [pl sent].
    destruct (not_host pl); [done|]. destruct (negb _); simpl; [done|].
    eapply one_host_same; [| |exact Hinv]; [done|]. apply assign_loop_same.
  - destruct (getSenderPlayer srv sender) as [pl sent].
    destruct (not_host pl); simpl; [done|].
    eapply one_host_same; [| |exact Hinv]; [done|]. apply clear_roles_same.
Qed.

Lemma reachable_one_host srv : reachable srv -> one_host (state srv).
Proof.
  induction 1 as [room_id|ev srv _ IH]; [done|].
  destruct ev as [conn|conn|env parsed sender]; simpl; try done.
  unfold onMessage. destruct (parsed ≫= clientMessageSchema); [|done].
  by apply one_host_dispatch.
Qed.

(** X14. In every state a room can reach there is no host while the room is
    empty ([hostId] is null), and otherwise exactly one: the participant
    stored first is a host, [hostId] is its id, and no other participant has
    the host flag. *)
Theorem reachable_room_has_one_host srv :
  reachable srv ->
  (hostId (state srv) = None <-> players (state srv) = [])
  /\ (forall k h rest, players (state srv) = (k, h) :: rest ->
        hostId (state srv) = Some k /\ id h = k /\ isHost h = true
        /\ filter (fun e : string * Player => isHost e.2 = true) (players (state srv))
           = [(k, h)]).
Proof.
  intros Hreach. pose proof (reachable_one_host srv Hreach) as Hone.
  pose proof (reachable_wf srv Hreach) as [_ Hids _].
  unfold one_host in Hone. destruct (players (state srv)) as [|[k h] rest] eqn:Eps.
  - split; [done|]. by intros ??? [=].
  - destruct Hone as (Hid & Hh & Hrest). split; [split; [congruence | done]|].
    intros k' h' rest' [= <- <- <-]. split; [done|].
    apply Forall_cons in Hids as [[_ Hkh] _]. split; [done|]. split; [done|].
    rewrite filter_cons_True by done. f_equal.
    clear -Hrest. induction Hrest as [|e rest He _ IH]; [done|].
    rewrite filter_cons_False; [done | congruence].
Qed.

Lemma reachable_room_has_one_host_witness :
  reachable ex_assigned /\ hostId (state ex_assigned) <> None.
Proof.
  split; [exact ex_assigned_reachable|].
  intros Hnone.
  apply (proj1 (reachable_room_has_one_host ex_assigned ex_assigned_reachable)) in Hnone.
  vm_compute in Hnone. discriminate.
Defined.

(** X15. The host never changes: once a reachable room has a host, after
    any further events [hostId] still names the same participant, who still
    has the host flag. *)
Theorem host_never_changes evs srv h :
  reachable srv ->
  hostId (state srv) = Some h ->
  hostId (state (run evs srv)) = Some h
  /\ exists p, obj_get h (players (state (run evs srv))) = Some p /\ isHost p = true.
Proof.
  intros Hreach Hh.
  pose proof (reachable_one_host srv Hreach) as Hone.
  pose proof (reachable_one_host _ (reachable_run evs srv Hreach)) as Hone'.
  pose proof (keeps_participants_run evs srv) as (kept & extra & Hps & Hkept).
  unfold one_host in *.
  destruct (players (state srv)) as [|[k p] rest]; [congruence|].
  destruct Hone as (Hid & Hp & _). assert (k = h) as -> by congruence.
  apply Forall2_cons_inv_l in Hkept as ([k' p'] & kept' & [Hk _] & _ & ->).
  simpl in Hk. subst k'. rewrite Hps in *. simpl in *.
  destruct Hone' as (Hid' & Hp' & _). split; [done|].
  exists p'. by rewrite decide_True.
Qed.

Lemma host_never_changes_witness :
  reachable ex_lobby /\ hostId (state ex_lobby) = Some "p1"
  /\ hostId (state ex_assigned) = Some "p1".
Proof.
  assert (H : hostId (state ex_lobby) = Some "p1") by (vm_compute; reflexivity).
  split; [exact ex_lobby_reachable|]. split; [exact H|].
  exact (proj1 (host_never_changes
                  [Message (ex_env 1004) (Some (wire AssignRoles)) "c1"]
                  ex_lobby "p1" ex_lobby_reachable H)).
Defined.

(** ** Bindings *)

Lemma dispatch_bindings env msg sender srv conn c :
  connectionIdToClientId (dispatch env msg sender srv).1 !! conn = Some c ->
  connectionIdToClientId srv !! conn = Some c
  \/ (c <> ""
      /\ (is_Some (obj_get c (players (state (dispatch env msg sender srv).1)))
          \/ inherited c = true)).
Proof.
  unfold dispatch. destruct msg as [n c'|n|b|k cnt| | |]; simpl; auto.
  - destruct (truthy c') eqn:Hc; simpl; [|auto].
    rewrite lookup_insert. case_decide as Hconn; [|auto].
    intros [= ->]. right. apply truthy_true in Hc. split; [done|].
    read_cases c srv; simpl; [left; by rewrite Hg | by right |].
    left. by rewrite obj_get_set_eq.
  - destruct (getSenderPlayer srv sender) as [pl sent].
    destruct (not_host pl); simpl; auto.
  - destruct (getSenderPlayer srv sender) as [pl sent].
    destruct (not_host pl); simpl; auto. destruct (negb _); simpl; auto.
  - destruct (getSenderPlayer srv sender) as [pl sent].
    destruct (not_host pl); simpl; auto.
Qed.

(** A connection of a reachable room is only bound to a non-empty id that
    names a stored participant or an inherited member. *)
Lemma reachable_bindings srv conn c :
  reachable srv ->
  connectionIdToClientId srv !! conn = Some c ->
  c <> "" /\ (is_Some (obj_get c (players (state srv))) \/ inherited c = true).
Proof.
  intros Hreach. revert conn c.
  induction Hreach as [room_id|ev srv _ IH]; intros conn c; [done|].
  assert (Hkeep : forall c0,
             c0 <> "" /\ (is_Some (obj_get c0 (players (state srv))) \/ inherited c0 = true) ->
             c0 <> "" /\ (is_Some (obj_get c0 (players (state (step ev srv).1)))
                          \/ inherited c0 = true)).
  { intros c0 [Hc0 [[p Hp]|Hinh]]; (split; [done|]); [|by right]. left.
    destruct (keeps_participants_get _ _ c0 p (keeps_participants_step ev srv) Hp)
      as (p' & Hp' & _). by exists p'. }
  destruct ev as [conn'|conn'|env parsed sender]; simpl in *.
  - apply IH.
  - destruct (connectionIdToClientId srv !! conn') as [c'|] eqn:Hb; [|apply IH].
    destruct (truthy c'); [|apply IH].
    rewrite lookup_delete. case_decide; [done | apply IH].
  - unfold onMessage in *. destruct (parsed ≫= clientMessageSchema) as [msg|]; [|apply IH].
    intros Hb. apply dispatch_bindings in Hb as [Hb|Hb]; [|done].
    apply Hkeep. by eapply IH.
Qed.

(** What [this.state.players[clientId]] reads for a bound connection of a
    reachable room is never [undefined]. *)
Lemma reachable_bound_read srv conn c :
  reachable srv ->
  connectionIdToClientId srv !! conn = Some c ->
  c <> ""
  /\ ((exists p, obj_get c (players (state srv)) = Some p
                 /\ obj_read c (players (state srv)) = Own p)
      \/ (inherited c = true /\ obj_get c (players (state srv)) = None
          /\ obj_read c (players (state srv)) = Inherited)).
Proof.
  intros Hreach Hb. destruct (reachable_bindings srv conn c Hreach Hb) as [Hc Hor].
  split; [done|]. unfold obj_read.
  destruct (obj_get c (players (state srv))) as [p|] eqn:Hg.
  - left. by exists p.
  - right. destruct Hor as [[p Hp]|Hinh]; [done|]. by rewrite Hinh.
Qed.

(** X16. In every state a room can reach, a connection is only ever bound to
    a non-empty id, and that id is the key of a stored participant or the
    name of an inherited member of [Object.prototype] under which nothing is
    stored. [getSenderPlayer] then reads the participant, or the inherited
    member, and sends nothing; it sends "please join first" exactly to the
    unbound connections. *)
Theorem bound_connections_resolve srv conn :
  reachable srv ->
  (forall c, connectionIdToClientId srv !! conn = Some c ->
     c <> ""
     /\ ((exists p, obj_get c (players (state srv)) = Some p
                    /\ getSenderPlayer srv conn = (Own p, []))
         \/ (inherited c = true /\ obj_get c (players (state srv)) = None
             /\ getSenderPlayer srv conn = (Inherited, []))))
  /\ (connectionIdToClientId srv !! conn = None <->
      getSenderPlayer srv conn = (Undefined, [(conn, ErrorMsg "please join first")])).
Proof.
  intros Hreach. split.
  - intros c Hb. destruct (reachable_bound_read srv conn c Hreach Hb) as [Hc Hor].
    split; [done|]. pose proof (proj2 (truthy_true c) Hc) as Ht.
    unfold getSenderPlayer. rewrite Hb, Ht.
    destruct Hor as [(p & Hp & ->)|(Hinh & Hg & ->)]; [left; by exists p | by right].
  - split; [apply getSenderPlayer_unbound|].
    destruct (connectionIdToClientId srv !! conn) as [c|] eqn:Hb; [|done].
    destruct (reachable_bound_read srv conn c Hreach Hb) as [Hc Hor].
    pose proof (proj2 (truthy_true c) Hc) as Ht.
    unfold getSenderPlayer. rewrite Hb, Ht.
    by destruct Hor as [(p & Hp & ->)|(Hinh & Hg & ->)].
Qed.

Lemma bound_connections_resolve_witness :
  reachable ex_lobby
  /\ connectionIdToClientId ex_lobby !! "c2" = Some "p2"
  /\ "p2" <> "".
Proof.
  assert (H : connectionIdToClientId ex_lobby !! "c2" = Some "p2")
    by (vm_compute; reflexivity).
  split; [exact ex_lobby_reachable|]. split; [exact H|].
  exact (proj1 (proj1 (bound_connections_resolve ex_lobby "c2" ex_lobby_reachable)
                  "p2" H)).
Defined.

(** ** Status and roles *)

Lemma clear_roles_none ps :
  NoDup ps.*1 -> Forall (fun e : string * Player => roleKey e.2 = None) (clear_roles ps).
Proof.
  intros Hnd. apply Forall_forall. intros [k p] Hin.
  assert (Hg : obj_get k (clear_roles ps) = Some p).
  { apply obj_get_NoDup; [by rewrite clear_roles_keys | done]. }
  rewrite clear_roles_get in Hg. destruct (obj_get k ps); [|done].
  by injection Hg as <-.
Qed.

Lemma reachable_lobby srv :
  reachable srv ->
  (status (state srv) = lobby ->
   assignedAt (state srv) = None
   /\ Forall (fun e : string * Player => roleKey e.2 = None) (players (state srv)))
  /\ (status (state srv) = assigned -> is_Some (assignedAt (state srv))).
Proof.
  induction 1 as [room_id|ev srv Hreach IH].
  { split; [by split | done]. }
  pose proof (reachable_wf srv Hreach) as [Hnd _ _].
  destruct ev as [conn|conn|env parsed sender]; simpl; try done.
  unfold onMessage. destruct (parsed ≫= clientMessageSchema) as [msg|]; [|done].
  unfold dispatch. destruct msg as [n c|n|b|k cnt| | |]; simpl; try done.
  - destruct (truthy c); simpl; [|done].
    read_cases c srv; simpl; [done | done |].
    destruct IH as [IHl IHa]. split; [|done].
    intros Hl. destruct (IHl Hl) as [Hat Hroles]. split; [done|].
    rewrite obj_set_fresh by done. apply Forall_app. split; [done|].
    by repeat constructor.
  - destruct (getSenderPlayer srv sender) as [pl sent].
    by destruct (not_host pl).
  - destruct (getSenderPlayer srv sender) as [pl sent].
    destruct (not_host pl); [done|]. destruct (negb _); simpl; [done|].
    split; [done | by eexists].
  - destruct (getSenderPlayer srv sender) as [pl sent].
    destruct (not_host pl); simpl; [done|].
    split; [|done]. intros _. split; [done | by apply clear_roles_none].
Qed.

(** X17. In every state a room can reach: while the status is [lobby] no
    participant holds a role and [assignedAt] is cleared; while it is
    [assigned], [assignedAt] is set. *)
Theorem reachable_status_invariant srv :
  reachable srv ->
  (status (state srv) = lobby ->
   assignedAt (state srv) = None /\ roles_held (state srv) = []
   /\ forall k p, obj_get k (players (state srv)) = Some p -> roleKey p = None)
  /\ (status (state srv) = assigned -> is_Some (assignedAt (state srv))).
Proof.
  intros Hreach. destruct (reachable_lobby srv Hreach) as [Hl Ha].
  split; [|done]. intros Hs. destruct (Hl Hs) as [Hat Hroles].
  split; [done|]. split.
  - unfold roles_held. clear Hl. induction Hroles as [|e ps He _ IH]; [done|].
    csimpl. by rewrite He.
  - intros k p Hg%obj_get_elem. rewrite Forall_forall in Hroles.
    by apply (Hroles (k, p)).
Qed.

Lemma reachable_status_invariant_witness :
  reachable ex_lobby /\ status (state ex_lobby) = lobby
  /\ roles_held (state ex_lobby) = [].
Proof.
  assert (H : status (state ex_lobby) = lobby) by (vm_compute; reflexivity).
  split; [exact ex_lobby_reachable|]. split; [exact H|].
  exact (proj1 (proj2 (proj1 (reachable_status_invariant ex_lobby ex_lobby_reachable) H))).
Defined.

(** ** Broadcasts *)

Lemma dispatch_connections env msg sender srv :
  connections (dispatch env msg sender srv).1 = connections srv.
Proof.
  unfold dispatch. destruct msg as [n c|n|b|k cnt| | |]; simpl; try done.
  - by destruct (truthy c).
  - destruct (getSenderPlayer srv sender) as [pl sent]. by destruct (not_host pl).
  - destruct (getSenderPlayer srv sender) as [pl sent].
    destruct (not_host pl); [done|]. by destruct (negb _).
  - destruct (getSenderPlayer srv sender) as [pl sent]. by destruct (not_host pl).
Qed.

Lemma reachable_connections srv : reachable srv -> NoDup (connections srv).
Proof.
  induction 1 as [room_id|ev srv _ IH]; [constructor|].
  destruct ev as [conn|conn|env parsed sender]; simpl.
  - case_bool_decide; [done|]. apply NoDup_app. split; [done|].
    split; [|apply NoDup_singleton].
    intros x Hx Hxc%list_elem_of_singleton. by subst x.
  - by apply NoDup_filter.
  - unfold onMessage. destruct (parsed ≫= clientMessageSchema); [|done].
    by rewrite dispatch_connections.
Qed.

Lemma broadcastState_elem srv conn m :
  (conn, m) ∈ broadcastState srv <->
  conn ∈ connections srv
  /\ m = StateMsg (personalizeStateFor (state srv) (connectionIdToClientId srv !! conn)).
Proof.
  unfold broadcastState. induction (connections srv) as [|c cs IH]; simpl.
  - rewrite !elem_of_nil. tauto.
  - rewrite !elem_of_cons, IH. split.
    + intros [[= -> ->]|[? ?]]; auto.
    + intros [[->|?] ->]; auto.
Qed.

Lemma broadcastState_recipients srv : (broadcastState srv).*1 = connections srv.
Proof.
  unfold broadcastState. induction (connections srv) as [|c cs IH]; [done|].
  simpl. by f_equal.
Qed.

Lemma redact_role v e r :
  roleKey (redact v e) = Some r -> v = Some e.1 /\ e.1 <> "" /\ roleKey e.2 = Some r.
Proof.
  unfold redact. destruct v as [v|]; [|done].
  destruct (truthy v) eqn:Hv; simpl; [|done].
  case_bool_decide as He; [|done]. subst v. apply truthy_true in Hv. done.
Qed.

(** X18. A broadcast in a reachable room sends one state message to every
    live connection, in order, and nothing else. A message shows a role for
    a participant only when its recipient is bound to that very participant,
    and then it is the role the room stores. *)
Theorem broadcast_is_private srv :
  reachable srv ->
  (broadcastState srv).*1 = connections srv
  /\ NoDup (connections srv)
  /\ forall conn m, (conn, m) ∈ broadcastState srv ->
       exists st,
         m = StateMsg st
         /\ forall k p r, obj_get k (players st) = Some p -> roleKey p = Some r ->
              connectionIdToClientId srv !! conn = Some k
              /\ exists q, obj_get k (players (state srv)) = Some q
                           /\ roleKey q = Some r.
Proof.
  intros Hreach. pose proof (reachable_wf srv Hreach) as [Hnd _ _].
  split; [apply broadcastState_recipients|].
  split; [by apply reachable_connections|].
  intros conn m [_ ->]%broadcastState_elem. eexists. split; [done|].
  intros k p r Hg Hr. rewrite personalize_players in Hg by done.
  apply obj_get_elem, list_elem_of_fmap in Hg as ([k' q] & [= -> ->] & Hin).
  simpl in *. apply redact_role in Hr as (Hv & _ & Hq). simpl in *.
  split; [done|]. exists q. split; [|done].
  apply obj_get_NoDup; [done|]. by rewrite <-(Object_entries_perm (players (state srv))).
Qed.

Lemma broadcast_is_private_witness :
  reachable ex_assigned /\ (broadcastState ex_assigned).*1 = ["c1"; "c2"].
Proof.
  split; [exact ex_assigned_reachable|].
  exact (proj1 (broadcast_is_private ex_assigned ex_assigned_reachable)).
Defined.

(** ** Participants who are not the host *)

(** X19. A connection bound to a participant without the host flag cannot
    edit quotas, deal or reset: each of the three commands only sends its
    own "only host can ..." error to the caller and changes nothing. *)
Theorem non_host_is_refused env sender srv c p :
  connectionIdToClientId srv !! sender = Some c ->
  c <> "" ->
  obj_get c (players (state srv)) = Some p ->
  isHost p = false ->
  (forall k n, dispatch env (SetRoleCount k n) sender srv
               = (srv, [(sender, ErrorMsg "only host can edit roles")]))
  /\ dispatch env AssignRoles sender srv
     = (srv, [(sender, ErrorMsg "only host can assign roles")])
  /\ dispatch env Reset sender srv
     = (srv, [(sender, ErrorMsg "only host can reset")]).
Proof.
  intros Hb Hc%truthy_true Hp Hh.
  assert (Hgs : getSenderPlayer srv sender = (Own p, [])).
  { unfold getSenderPlayer, obj_read. by rewrite Hb, Hc, Hp. }
  repeat split; intros; unfold dispatch; rewrite Hgs; simpl; by rewrite Hh.
Qed.

Lemma non_host_is_refused_witness :
  connectionIdToClientId ex_lobby !! "c2" = Some "p2"
  /\ "p2" <> ""
  /\ obj_get "p2" (players (state ex_lobby))
     = Some (mkPlayer "p2" "nora montgomery" false 1001 None)
  /\ dispatch (ex_env 1004) AssignRoles "c2" ex_lobby
     = (ex_lobby, [("c2", ErrorMsg "only host can assign roles")]).
Proof.
  assert (H1 : connectionIdToClientId ex_lobby !! "c2" = Some "p2")
    by (vm_compute; reflexivity).
  assert (H2 : "p2" <> "") by discriminate.
  assert (H3 : obj_get "p2" (players (state ex_lobby))
               = Some (mkPlayer "p2" "nora montgomery" false 1001 None))
    by (vm_compute; reflexivity).
  split; [exact H1|]. split; [exact H2|]. split; [exact H3|].
  exact (proj1 (proj2 (non_host_is_refused (ex_env 1004) "c2" ex_lobby "p2" _
                         H1 H2 H3 eq_refl))).
Defined.

(** ** Connecting, closing, coming back *)

(** X20. Closing a connection of a reachable room leaves the room state
    (participants included) as it is, removes the connection from the live
    set and its binding, and touches no other connection. A later host-only
    command on the closed connection is answered "please join first". *)
Theorem onClose_forgets_connection env conn srv :
  reachable srv ->
  state (onClose conn srv) = state srv
  /\ (conn ∉ connections (onClose conn srv))
  /\ connectionIdToClientId (onClose conn srv) !! conn = None
  /\ (forall c', c' <> conn ->
        connectionIdToClientId (onClose conn srv) !! c'
        = connectionIdToClientId srv !! c'
        /\ (c' ∈ connections (onClose conn srv) <-> c' ∈ connections srv))
  /\ dispatch env Reset conn (onClose conn srv)
     = (onClose conn srv, [(conn, ErrorMsg "please join first");
                           (conn, ErrorMsg "only host can reset")]).
Proof.
  intros Hreach.
  assert (Hnone : connectionIdToClientId (onClose conn srv) !! conn = None).
  { unfold onClose. simpl.
    destruct (connectionIdToClientId srv !! conn) as [c|] eqn:Hb; [|done].
    destruct (reachable_bindings srv conn c Hreach Hb) as [Hc%truthy_true _].
    rewrite Hc. apply lookup_delete_eq. }
  split; [done|]. split.
  { unfold onClose. simpl. rewrite list_elem_of_filter. by intros [? _]. }
  split; [done|]. split.
  - intros c' Hne. split.
    + unfold onClose. simpl.
      destruct (connectionIdToClientId srv !! conn) as [c|]; [|done].
      destruct (truthy c); [|done]. by rewrite lookup_delete_ne.
    + unfold onClose. simpl. rewrite list_elem_of_filter.
      split; [by intros [_ ?] | intros ?; by split].
  - unfold dispatch. by rewrite (getSenderPlayer_unbound _ _ Hnone).
Qed.

Lemma onClose_forgets_connection_witness :
  reachable ex_lobby /\ connectionIdToClientId (onClose "c1" ex_lobby) !! "c1" = None.
Proof.
  split; [exact ex_lobby_reachable|].
  exact (proj1 (proj2 (proj2 (onClose_forgets_connection (ex_env 1004) "c1" ex_lobby
                                ex_lobby_reachable)))).
Defined.

(** X21. Coming back: a participant's connection closes, a connection opens
    and joins under the same client id. The room state is exactly what it
    was before the close, the new connection is bound to the participant,
    the broadcast of the join shows it the participant's own view, and a
    host is host again. *)
Theorem reconnect_restores_identity env n conn conn' srv c :
  reachable srv ->
  connectionIdToClientId srv !! conn = Some c ->
  let res := dispatch env (Join n c) conn' (onConnect conn' (onClose conn srv)).1 in
  state res.1 = state srv
  /\ connectionIdToClientId res.1 !! conn' = Some c
  /\ (conn', StateMsg (personalizeStateFor (state srv) (Some c))) ∈ res.2
  /\ (bound_to_host srv conn -> bound_to_host res.1 conn').
Proof.
  intros Hreach Hb res.
  destruct (reachable_bound_read srv conn c Hreach Hb) as [Hc Hread].
  pose proof (proj2 (truthy_true c) Hc) as Ht.
  assert (Hres : res = (let srv' := {| state := state srv;
                                       connections := connections (onConnect conn' (onClose conn srv)).1;
                                       connectionIdToClientId :=
                                         <[conn' := c]> (connectionIdToClientId (onClose conn srv)) |}
                        in (srv', broadcastState srv'))).
  { subst res. unfold dispatch. rewrite Ht. simpl state.
    by destruct Hread as [(p & _ & ->)|(_ & _ & ->)]. }
  rewrite Hres. simpl. split; [done|].
  split; [apply lookup_insert_eq|]. split.
  - apply broadcastState_elem. simpl. rewrite lookup_insert_eq. split; [|done].
    case_bool_decide; [done|]. apply elem_of_app. right. left.
  - intros (c0 & h & Hb0 & _ & Hh & Hhost). assert (c0 = c) as -> by congruence.
    exists c, h. simpl. by rewrite lookup_insert_eq.
Qed.

Lemma reconnect_restores_identity_witness :
  reachable ex_assigned
  /\ connectionIdToClientId ex_assigned !! "c2" = Some "p2"
  /\ state (dispatch (ex_env 1010) (Join "bob" "p2") "c9"
              (onConnect "c9" (onClose "c2" ex_assigned)).1).1
     = state ex_assigned.
Proof.
  assert (H : connectionIdToClientId ex_assigned !! "c2" = Some "p2")
    by (vm_compute; reflexivity).
  split; [exact ex_assigned_reachable|]. split; [exact H|].
  exact (proj1 (reconnect_restores_identity (ex_env 1010) "bob" "c2" "c9" ex_assigned
                  "p2" ex_assigned_reachable H)).
Defined.

Lemma roles_held_redacted (es : Obj Player) :
  omap (fun e : string * Player => roleKey e.2)
       ((fun e => (e.1, redact None e)) <$> es) = [].
Proof. induction es as [|e es IH]; [done|]. csimpl. exact IH. Qed.

(** X22. A connection that opens on a reachable room is added to the live
    set (once, however often it is announced) and is sent one message: the
    room state with the roles of all participants removed, holding the
    same participants. The room state and the bindings do not change. *)
Theorem onConnect_greets conn srv :
  reachable srv ->
  let res := onConnect conn srv in
  state res.1 = state srv
  /\ connectionIdToClientId res.1 = connectionIdToClientId srv
  /\ conn ∈ connections res.1
  /\ NoDup (connections res.1)
  /\ connections (onConnect conn res.1).1 = connections res.1
  /\ exists st, res.2 = [(conn, StateMsg st)]
                /\ roles_held st = []
                /\ (players st).*1 ≡ₚ (players (state srv)).*1.
Proof.
  intros Hreach res. pose proof (reachable_wf srv Hreach) as [Hnd _ _].
  assert (Hin : conn ∈ connections res.1).
  { subst res. simpl. case_bool_decide; [done|]. apply elem_of_app. right. left. }
  split; [done|]. split; [done|]. split; [done|]. split.
  { apply (reachable_connections _ (reachable_step (Connect conn) srv Hreach)). }
  split.
  { simpl. by rewrite bool_decide_eq_true_2. }
  eexists. split; [done|]. unfold roles_held.
  rewrite personalize_players by done. split; [apply roles_held_redacted|].
  rewrite <-list_fmap_compose. change (fst <$> Object_entries ?o) with (Object_keys o).
  apply Object_keys_perm.
Qed.

Lemma onConnect_greets_witness :
  reachable ex_assigned /\ "c7" ∈ connections (onConnect "c7" ex_assigned).1.
Proof.
  split; [exact ex_assigned_reachable|].
  exact (proj1 (proj2 (proj2 (onConnect_greets "c7" ex_assigned ex_assigned_reachable)))).
Defined.

(** ** The roles dealt *)

Lemma buildDeck_count config k :
  length (filter (fun y => y = k) (buildDeck config)) = Z.to_nat (config_get config k).
Proof.
  rewrite buildDeck_unfold, !filter_app, !filter_replicate_eq, !length_app.
  destruct k; simpl; rewrite ?length_replicate; simpl; lia.
Qed.

(** After the loop every player of [ordered] holds the card at its
    position, and these are all the players. *)
Lemma assign_loop_deals (ps : Obj Player) (shuffled : list RoleKey) :
  NoDup ps.*1 -> length shuffled = length ps ->
  assign_loop (orderedPlayers ps) shuffled ps
  ≡ₚ (fun x : (string * Player) * RoleKey => (x.1.1, set_roleKey (Some x.2) x.1.2))
     <$> zip (orderedPlayers ps) shuffled.
Proof.
  intros Hnd Hlen.
  set (ord := orderedPlayers ps).
  assert (Hord : ord ≡ₚ ps) by apply orderedPlayers_perm.
  assert (Hordnd : NoDup ord.*1) by (by rewrite Hord).
  assert (Hlen' : length shuffled = length ord) by (by rewrite Hord).
  assert (Hkeys : (assign_loop ord shuffled ps).*1 = ps.*1) by apply assign_loop_keys.
  apply NoDup_Permutation.
  - apply (NoDup_fmap_1 fst). by rewrite Hkeys.
  - apply (NoDup_fmap_1 fst). rewrite <-list_fmap_compose.
    change (fst ∘ _) with (fst ∘ (fst : (string * Player) * RoleKey -> string * Player)).
    rewrite list_fmap_compose, fst_zip by lia. done.
  - intros [k q]. split.
    + intros Hin.
      assert (Hg : obj_get k (assign_loop ord shuffled ps) = Some q).
      { apply obj_get_NoDup; [by rewrite Hkeys | done]. }
      assert (Hk : k ∈ ord.*1).
      { rewrite Hord, <-Hkeys. apply list_elem_of_fmap. by exists (k, q). }
      apply list_elem_of_fmap in Hk as ([k' p] & -> & Hp).
      apply list_elem_of_lookup in Hp as [i Hi]. simpl in *.
      destruct (lookup_lt_is_Some_2 shuffled i) as [r Hr].
      { rewrite Hlen'. by eapply lookup_lt_Some. }
      rewrite (assign_loop_get _ _ _ i k' p) in Hg by done.
      rewrite Hr, (obj_get_NoDup k' p ps) in Hg; [|done|].
      2: { rewrite <-Hord. by eapply list_elem_of_lookup_2. }
      injection Hg as <-.
      apply list_elem_of_fmap. exists ((k', p), r). split; [done|].
      apply list_elem_of_lookup. exists i. by apply lookup_zip_Some.
    + intros ([[k' p] r] & [= -> ->] & Hin)%list_elem_of_fmap.
      apply list_elem_of_lookup in Hin as [i [Hi Hr]%lookup_zip_Some]. simpl.
      apply obj_get_elem. rewrite (assign_loop_get _ _ _ i k' p) by done.
      rewrite Hr, (obj_get_NoDup k' p ps); [done | done |].
      rewrite <-Hord. by eapply list_elem_of_lookup_2.
Qed.

(** X23. After the host has dealt in a reachable room, the roles the
    participants hold are, taken together, exactly the deck: every role key
    is held by as many participants as its quota says. *)
Theorem dealt_roles_match_quota env sender srv :
  reachable srv -> bound_to_host srv sender ->
  totalRoles (roleConfig (state srv)) = Z.of_nat (length (players (state srv))) ->
  let s' := state (dispatch env AssignRoles sender srv).1 in
  roles_held s' ≡ₚ buildDeck (roleConfig (state srv))
  /\ forall k, length (filter (fun r => r = k) (roles_held s'))
               = Z.to_nat (config_get (roleConfig (state srv)) k).
Proof.
  intros Hreach (h & Hgs & Hh)%getSenderPlayer_host Htot.
  pose proof (reachable_wf srv Hreach) as [Hnd _ Hq].
  assert (Hlen : length (buildDeck (roleConfig (state srv)))
                 = length (players (state srv))).
  { apply Nat2Z.inj. rewrite <-Htot. apply buildDeck_total. intros r. apply Hq. }
  intros s'.
  assert (Hheld : roles_held s' ≡ₚ buildDeck (roleConfig (state srv))).
  { subst s'. unfold dispatch. rewrite Hgs. simpl not_host. rewrite Hh.
    simpl negb at 1. cbv iota. rewrite Object_keys_length.
    rewrite (proj2 (Nat.eqb_eq _ _) Hlen). simpl. unfold roles_held. simpl.
    rewrite assign_loop_deals; [|done|by rewrite shuffle_perm].
    rewrite <-(shuffle_perm (buildDeck (roleConfig (state srv))) (random env)) at 2.
    set (sh := shuffle _ _).
    assert (Hsh : length sh = length (orderedPlayers (players (state srv)))).
    { unfold sh. by rewrite shuffle_perm, orderedPlayers_perm. }
    clearbody sh. revert sh Hsh.
    induction (orderedPlayers (players (state srv))) as [|e ord IH];
      intros [|r sh] Hsh; try done.
    csimpl. f_equiv. apply IH. simpl in Hsh. lia. }
  split; [done|]. intros k. rewrite Hheld. apply buildDeck_count.
Qed.

Lemma dealt_roles_match_quota_witness :
  reachable ex_lobby /\ bound_to_host ex_lobby "c1"
  /\ totalRoles (roleConfig (state ex_lobby)) = Z.of_nat (length (players (state ex_lobby)))
  /\ roles_held (state ex_assigned) ≡ₚ [A; B].
Proof.
  assert (H : totalRoles (roleConfig (state ex_lobby))
              = Z.of_nat (length (players (state ex_lobby))))
    by (vm_compute; reflexivity).
  split; [exact ex_lobby_reachable|]. split; [exact ex_lobby_host|].
  split; [exact H|].
  exact (proj1 (dealt_roles_match_quota (ex_env 1004) "c1" ex_lobby
                  ex_lobby_reachable ex_lobby_host H)).
Defined.

(** ** Joining, once more *)

(** What a join with a non-empty client id does. *)
Lemma join_by_id env n c conn srv :
  c <> "" ->
  exists s',
    dispatch env (Join n c) conn srv
    = (let srv' := {| state := s'; connections := connections srv;
                      connectionIdToClientId := <[conn := c]> (connectionIdToClientId srv) |}
       in (srv', broadcastState srv'))
    /\ match obj_read c (players (state srv)) with
       | Own _ | Inherited => s' = state srv
       | Undefined =>
           players s' = players (state srv)
                        ++ [(c, mkPlayer c (generateOldTimeyName env)
                                         (bool_decide (length (players (state srv)) = 0%nat))
                                         (now env) None)]
           /\ status s' = status (state srv)
           /\ roleConfig s' = roleConfig (state srv)
       end.
Proof.
  intros Hc%truthy_true. unfold dispatch. rewrite Hc.
  destruct (obj_read c (players (state srv))) eqn:Hr.
  - by eexists.
  - by eexists.
  - eexists. split; [done|]. simpl. rewrite Object_keys_length.
    rewrite obj_set_fresh; [done|]. unfold obj_read in Hr.
    by destruct (obj_get c (players (state srv))).
Qed.

(** X24. A join with a non-empty client id binds the sending connection to
    that id, whatever it was bound to before, leaves the bindings of all
    other connections alone, and broadcasts the state. Unless the id is the
    name of an inherited member of [Object.prototype], it names a
    participant afterwards; if it is such a name, the room state is left as
    it was. No ownership is checked: a connection that names the host's id
    is bound to the host. *)
Theorem join_binds_connection env n c conn srv :
  c <> "" ->
  let res := dispatch env (Join n c) conn srv in
  connectionIdToClientId res.1 !! conn = Some c
  /\ (forall conn', conn' <> conn ->
        connectionIdToClientId res.1 !! conn' = connectionIdToClientId srv !! conn')
  /\ (inherited c = false -> is_Some (obj_get c (players (state res.1))))
  /\ (inherited c = true -> state res.1 = state srv)
  /\ res.2 = broadcastState res.1
  /\ (forall h, obj_get c (players (state srv)) = Some h -> isHost h = true ->
        bound_to_host res.1 conn).
Proof.
  intros Hc res. destruct (join_by_id env n c conn srv Hc) as (s' & Hres & Hs').
  subst res. rewrite Hres. simpl.
  split; [apply lookup_insert_eq|].
  split; [by intros conn' Hne; apply lookup_insert_ne|].
  unfold obj_read in Hs'. split; [|split; [|split; [done|]]].
  - intros Hinh. rewrite Hinh in Hs'.
    destruct (obj_get c (players (state srv))) eqn:Hg.
    + subst s'. by rewrite Hg.
    + destruct Hs' as (-> & _). rewrite obj_get_app, Hg. simpl.
      by rewrite decide_True.
  - intros Hinh. rewrite Hinh in Hs'.
    by destruct (obj_get c (players (state srv))).
  - intros h Hg Hh. rewrite Hg in Hs'. subst s'.
    exists c, h. simpl. by rewrite lookup_insert_eq.
Qed.

Lemma join_binds_connection_witness :
  "p1" <> ""
  /\ connectionIdToClientId (dispatch (ex_env 1009) (Join "eve" "p1") "c2" ex_lobby).1
     !! "c2" = Some "p1".
Proof.
  assert (H : "p1" <> "") by discriminate.
  split; [exact H|].
  exact (proj1 (join_binds_connection (ex_env 1009) "eve" "p1" "c2" ex_lobby H)).
Defined.

(** X25. A newcomer after the quotas fit: in a reachable room whose deck is
    as large as the number of participants, a join under a new id that is
    not the name of an inherited member of [Object.prototype] adds a
    participant without a role and without the host flag, keeps the status,
    and makes the host's next [assignRoles] fail with the quota error, the
    room unchanged. *)
Theorem late_joiner_blocks_deal env env' n c conn sender srv :
  reachable srv -> bound_to_host srv sender -> conn <> sender ->
  c <> "" -> inherited c = false -> obj_get c (players (state srv)) = None ->
  length (buildDeck (roleConfig (state srv))) = length (players (state srv)) ->
  let srv1 := (dispatch env (Join n c) conn srv).1 in
  status (state srv1) = status (state srv)
  /\ (exists p, obj_get c (players (state srv1)) = Some p
                /\ roleKey p = None /\ isHost p = false)
  /\ dispatch env' AssignRoles sender srv1
     = (srv1, [(sender, ErrorMsg "role count must equal number of players")]).
Proof.
  intros Hreach Hhost Hne Hc Hinh Hnew Hlen srv1.
  destruct (join_by_id env n c conn srv Hc) as (s' & Hres & Hs').
  unfold obj_read in Hs'. rewrite Hnew, Hinh in Hs'. destruct Hs' as (Hps & Hst & Hcfg).
  assert (Hsrv1 : srv1 = {| state := s'; connections := connections srv;
                            connectionIdToClientId :=
                              <[conn := c]> (connectionIdToClientId srv) |}).
  { subst srv1. by rewrite Hres. }
  destruct Hhost as (c0 & h & Hb & Hc0 & Hg & Hh).
  assert (Hnonempty : length (players (state srv)) <> 0%nat).
  { apply obj_get_elem in Hg. destruct (players (state srv)); [|done].
    by apply elem_of_nil in Hg. }
  rewrite Hsrv1. simpl. split; [done|]. split.
  - eexists. rewrite Hps, obj_get_app, Hnew. simpl. rewrite decide_True by done.
    split; [done|]. split; [done|]. simpl. by apply bool_decide_eq_false_2.
  - assert (Hgs : getSenderPlayer {| state := s'; connections := connections srv;
                                     connectionIdToClientId :=
                                       <[conn := c]> (connectionIdToClientId srv) |}
                                  sender = (Own h, [])).
    { unfold getSenderPlayer, obj_read. simpl. rewrite lookup_insert_ne, Hb by done.
      apply truthy_true in Hc0. rewrite Hc0, Hps, obj_get_app, Hg. done. }
    unfold dispatch. rewrite Hgs. simpl not_host. rewrite Hh. simpl negb at 1.
    cbv iota. rewrite Object_keys_length. simpl. rewrite Hcfg, Hps, length_app. simpl.
    assert ((length (buildDeck (roleConfig (state srv)))
             =? length (players (state srv)) + 1)%nat = false) as ->; [|done].
    apply Nat.eqb_neq. lia.
Qed.

Lemma late_joiner_blocks_deal_witness :
  reachable ex_assigned /\ bound_to_host ex_assigned "c1" /\ "c3" <> "c1"
  /\ "p3" <> "" /\ inherited "p3" = false
  /\ obj_get "p3" (players (state ex_assigned)) = None
  /\ length (buildDeck (roleConfig (state ex_assigned)))
     = length (players (state ex_assigned))
  /\ status (state (dispatch (ex_env 1010) (Join "carol" "p3") "c3" ex_assigned).1)
     = assigned.
Proof.
  assert (H1 : "c3" <> "c1") by discriminate.
  assert (H2 : "p3" <> "") by discriminate.
  assert (Hi : inherited "p3" = false) by reflexivity.
  assert (H3 : obj_get "p3" (players (state ex_assigned)) = None)
    by (vm_compute; reflexivity).
  assert (H4 : length (buildDeck (roleConfig (state ex_assigned)))
               = length (players (state ex_assigned))) by (vm_compute; reflexivity).
  split; [exact ex_assigned_reachable|]. split; [exact ex_assigned_host|].
  split; [exact H1|]. split; [exact H2|]. split; [exact Hi|]. split; [exact H3|].
  split; [exact H4|].
  etransitivity;
    [exact (proj1 (late_joiner_blocks_deal (ex_env 1010) (ex_env 1011) "carol" "p3"
                     "c3" "c1" ex_assigned ex_assigned_reachable ex_assigned_host
                     H1 H2 Hi H3 H4))|].
  vm_compute. reflexivity.
Defined.

(** ** Editing the quotas *)

Lemma setRoleCount_by_host env sender srv k n :
  bound_to_host srv sender -> 0 <= n <= 99 ->
  let s := state srv in
  let srv' := {| state := {| roomId := roomId s; hostId := hostId s; status := status s;
                             players := players s;
                             roleConfig := config_set (roleConfig s) k n;
                             assignedAt := assignedAt s;
                             rolesCatalog_of := rolesCatalog_of s |};
                 connections := connections srv;
                 connectionIdToClientId := connectionIdToClientId srv |} in
  onMessage env (Some (wire (SetRoleCount k n))) sender srv = (srv', broadcastState srv').
Proof.
  intros (h & Hgs & Hh)%getSenderPlayer_host Hn.
  rewrite onMessage_wire by done. unfold dispatch. rewrite Hgs. simpl. rewrite Hh. simpl.
  by replace (0 `max` (99 `min` n)) with n by lia.
Qed.

Lemma config_set_set c k v w : config_set (config_set c k v) k w = config_set c k w.
Proof. by destruct k. Qed.

Lemma config_set_comm c k1 k2 v w :
  k1 <> k2 -> config_set (config_set c k1 v) k2 w = config_set (config_set c k2 w) k1 v.
Proof. by destruct k1, k2. Qed.

(** X26. Two quota edits by the host, both within [0, 99]: afterwards each
    edited role has the count of its last edit and every other role its old
    count; participants and status are untouched. Edits of different roles
    give the same room state in either order, and a second edit of the same
    role makes the first one invisible. *)
Theorem quota_edits_compose env1 env2 sender srv k1 n1 k2 n2 :
  bound_to_host srv sender -> 0 <= n1 <= 99 -> 0 <= n2 <= 99 ->
  let edit k n env x := (onMessage env (Some (wire (SetRoleCount k n))) sender x).1 in
  let srv2 := edit k2 n2 env2 (edit k1 n1 env1 srv) in
  (forall k, config_get (roleConfig (state srv2)) k
             = if decide (k2 = k) then n2
               else if decide (k1 = k) then n1
               else config_get (roleConfig (state srv)) k)
  /\ players (state srv2) = players (state srv)
  /\ status (state srv2) = status (state srv)
  /\ (k1 <> k2 -> state srv2 = state (edit k1 n1 env1 (edit k2 n2 env2 srv)))
  /\ (k1 = k2 -> state srv2 = state (edit k2 n2 env2 srv)).
Proof.
  intros Hhost Hn1 Hn2 edit srv2.
  assert (Hkeep : forall k n env x, bound_to_host x sender -> 0 <= n <= 99 ->
                  bound_to_host (edit k n env x) sender).
  { intros k n env x Hx Hn. unfold edit. rewrite setRoleCount_by_host by done.
    destruct Hx as (c & h & ?). by exists c, h. }
  subst srv2. unfold edit in *.
  rewrite (setRoleCount_by_host env2 sender _ k2 n2) by auto.
  rewrite (setRoleCount_by_host env1 sender srv k1 n1) by auto.
  rewrite (setRoleCount_by_host env1 sender _ k1 n1) by auto.
  rewrite !(setRoleCount_by_host env2 sender srv k2 n2) by auto.
  simpl. split; [|split; [done|split; [done|split]]].
  - intros k. by rewrite !config_get_set.
  - intros Hne. by rewrite config_set_comm.
  - intros ->. by rewrite config_set_set.
Qed.

Lemma quota_edits_compose_witness :
  bound_to_host ex_lobby "c1" /\ 0 <= 3 <= 99 /\ 0 <= 5 <= 99
  /\ config_get
       (roleConfig
          (state (onMessage (ex_env 1006) (Some (wire (SetRoleCount A 5))) "c1"
                    (onMessage (ex_env 1005) (Some (wire (SetRoleCount A 3))) "c1"
                               ex_lobby).1).1)) A = 5.
Proof.
  assert (H1 : 0 <= 3 <= 99) by lia. assert (H2 : 0 <= 5 <= 99) by lia.
  split; [exact ex_lobby_host|]. split; [exact H1|]. split; [exact H2|].
  exact (proj1 (quota_edits_compose (ex_env 1005) (ex_env 1006) "c1" ex_lobby
                  A 3 A 5 ex_lobby_host H1 H2) A).
Defined.

(** ** Deal and reset *)

Lemma same_person_eq p q : same_person p q -> roleKey q = roleKey p -> q = p.
Proof. destruct p, q. intros (?&?&?&?) ?. simpl in *. congruence. Qed.

(** X27. Deal, then reset: in a reachable room in status [lobby] whose
    quotas fit, the host's [assignRoles] followed by the host's [reset]
    brings back exactly the room state from before the deal. *)
Theorem deal_then_reset_is_identity env env' sender srv :
  reachable srv -> bound_to_host srv sender ->
  status (state srv) = lobby ->
  totalRoles (roleConfig (state srv)) = Z.of_nat (length (players (state srv))) ->
  let dealt := (dispatch env AssignRoles sender srv).1 in
  status (state dealt) = assigned
  /\ state (dispatch env' Reset sender dealt).1 = state srv.
Proof.
  intros Hreach Hhost Hlobby Htot dealt.
  pose proof (reachable_wf srv Hreach) as [Hnd _ Hq].
  destruct (reachable_lobby srv Hreach) as [Hl _].
  destruct (Hl Hlobby) as [Hat Hroles].
  assert (Hlen : length (buildDeck (roleConfig (state srv)))
                 = length (players (state srv))).
  { apply Nat2Z.inj. rewrite <-Htot. apply buildDeck_total. intros r. apply Hq. }
  destruct (getSenderPlayer_host srv sender Hhost) as (h & Hgs & Hh).
  assert (Hdealt : dealt
            = {| state := {| roomId := roomId (state srv); hostId := hostId (state srv);
                             status := assigned;
                             players := assign_loop (orderedPlayers (players (state srv)))
                                          (shuffle (buildDeck (roleConfig (state srv)))
                                                   (random env))
                                          (players (state srv));
                             roleConfig := roleConfig (state srv);
                             assignedAt := Some (now env);
                             rolesCatalog_of := rolesCatalog_of (state srv) |};
                 connections := connections srv;
                 connectionIdToClientId := connectionIdToClientId srv |}).
  { subst dealt. unfold dispatch. rewrite Hgs. simpl not_host. rewrite Hh.
    simpl negb at 1. cbv iota. rewrite Object_keys_length.
    by rewrite (proj2 (Nat.eqb_eq _ _) Hlen). }
  assert (Hhost' : bound_to_host dealt sender).
  { rewrite Hdealt. destruct Hhost as (c & h0 & Hb & Hc & Hg & Hh0).
    destruct (keeps_participants_get _ _ c h0
                (keeps_participants_same _ _
                   (assign_loop_same (orderedPlayers (players (state srv)))
                      (shuffle (buildDeck (roleConfig (state srv))) (random env))
                      (players (state srv)))) Hg) as (h' & Hg' & (_ & _ & Hh' & _)).
    exists c, h'. simpl. repeat split; try done. congruence. }
  split; [by rewrite Hdealt|].
  rewrite (reset_by_host env' sender dealt Hhost'). rewrite Hdealt. simpl.
  destruct srv as [[rid hid st ps cfg at_ cat] conns binds]. simpl in *.
  subst st at_. f_equal.
  pose proof (Forall2_same_trans _ _ _ (assign_loop_same (orderedPlayers ps)
                (shuffle (buildDeck cfg) (random env)) ps)
                (clear_roles_same _)) as Hsame.
  assert (Hnone : Forall (fun e : string * Player => roleKey e.2 = None)
                         (clear_roles (assign_loop (orderedPlayers ps)
                            (shuffle (buildDeck cfg) (random env)) ps))).
  { apply clear_roles_none. by rewrite assign_loop_keys. }
  revert Hnone Hroles. clear -Hsame. induction Hsame as [|[k p] [k' p'] ps ps' [Hk Hp] _ IH].
  - done.
  - intros [H1 H2]%Forall_cons [H3 H4]%Forall_cons. simpl in *. subst k'.
    f_equal; [|by apply IH]. f_equal. apply same_person_eq; [done | congruence].
Qed.

Lemma deal_then_reset_is_identity_witness :
  reachable ex_lobby /\ bound_to_host ex_lobby "c1"
  /\ status (state ex_lobby) = lobby
  /\ totalRoles (roleConfig (state ex_lobby)) = Z.of_nat (length (players (state ex_lobby)))
  /\ state (dispatch (ex_env 1005) Reset "c1" ex_assigned).1 = state ex_lobby.
Proof.
  assert (H1 : status (state ex_lobby) = lobby) by (vm_compute; reflexivity).
  assert (H2 : totalRoles (roleConfig (state ex_lobby))
               = Z.of_nat (length (players (state ex_lobby))))
    by (vm_compute; reflexivity).
  split; [exact ex_lobby_reachable|]. split; [exact ex_lobby_host|].
  split; [exact H1|]. split; [exact H2|].
  exact (proj2 (deal_then_reset_is_identity (ex_env 1004) (ex_env 1005) "c1" ex_lobby
                  ex_lobby_reachable ex_lobby_host H1 H2)).
Defined.

(** ** The client's view *)

(** X28. The client's [canAssign] agrees with the server. For a connection
    bound to a client id in a reachable room, computed on the state the
    server sends to that connection, [canAssign] holds exactly when the room
    is in status [lobby], the connection is the host's and the quotas add up
    to the number of participants; and whenever it holds, the server carries
    out [assignRoles] from that connection. *)
Theorem canAssign_agrees env conn c srv :
  reachable srv ->
  connectionIdToClientId srv !! conn = Some c ->
  let st := personalizeStateFor (state srv) (Some c) in
  (canAssign st c = true <->
   status (state srv) = lobby /\ bound_to_host srv conn
   /\ totalRoles (roleConfig (state srv)) = Z.of_nat (length (players (state srv))))
  /\ (canAssign st c = true ->
      status (state (dispatch env AssignRoles conn srv).1) = assigned
      /\ (dispatch env AssignRoles conn srv).2
         = broadcastState (dispatch env AssignRoles conn srv).1).
Proof.
  intros Hreach Hb st.
  pose proof (reachable_wf srv Hreach) as [Hnd _ Hq].
  destruct (reachable_bindings srv conn c Hreach Hb) as [Hc Hstored].
  pose proof (proj2 (truthy_true c) Hc) as Ht.
  assert (Hcount : length (Object_keys (players st)) = length (players (state srv))).
  { rewrite Object_keys_length. unfold st. rewrite personalize_players by done.
    rewrite length_fmap. by rewrite Object_entries_perm. }
  assert (Hiff : canAssign st c = true <->
                 status (state srv) = lobby /\ bound_to_host srv conn
                 /\ totalRoles (roleConfig (state srv))
                    = Z.of_nat (length (players (state srv)))).
  { destruct (obj_get c (players (state srv))) as [p|] eqn:Hp.
    - assert (Hme : client_me st c = Own p).
      { unfold client_me, obj_read, st. rewrite (personalize_get _ _ c p) by done.
        unfold redact. simpl. by rewrite Ht, bool_decide_eq_true_2. }
      assert (Hcan : canAssign st c
                     = match status (state srv) with
                       | lobby => isHost p
                                  && (totalRoles (roleConfig (state srv))
                                      =? Z.of_nat (length (players (state srv))))
                       | assigned => false
                       end).
      { unfold canAssign. by rewrite Hme, Hcount. }
      rewrite Hcan. split.
      + destruct (status (state srv)); [|done].
        intros [Hh Heq%Z.eqb_eq]%andb_true_iff. split; [done|]. split; [|done].
        by exists c, p.
      + intros (-> & (c' & h & Hb' & _ & Hg & Hh) & Heq).
        assert (c' = c) as -> by congruence. assert (h = p) as -> by congruence.
        rewrite Hh. simpl. by apply Z.eqb_eq.
    - assert (Hcan : canAssign st c = false).
      { unfold canAssign, client_me, obj_read, st.
        rewrite (personalize_get_None _ _ c) by done.
        change (status (personalizeStateFor (state srv) (Some c)))
          with (status (state srv)).
        destruct (status (state srv)); [|done]. by destruct (inherited c). }
      rewrite Hcan. split; [done|].
      intros (_ & (c' & h & Hb' & _ & Hg & _) & _).
      assert (c' = c) as -> by congruence. congruence. }
  split; [exact Hiff|]. intros Hyes. apply Hiff in Hyes as (_ & Hhost & Htot).
  destruct (getSenderPlayer_host srv conn Hhost) as (h & Hgs & Hh).
  assert (Hlen : length (buildDeck (roleConfig (state srv)))
                 = length (players (state srv))).
  { apply Nat2Z.inj. rewrite <-Htot. apply buildDeck_total. intros r. apply Hq. }
  unfold dispatch. rewrite Hgs. simpl not_host. rewrite Hh. simpl negb at 1.
  cbv iota. rewrite Object_keys_length. by rewrite (proj2 (Nat.eqb_eq _ _) Hlen).
Qed.

Lemma canAssign_agrees_witness :
  reachable ex_lobby /\ connectionIdToClientId ex_lobby !! "c1" = Some "p1"
  /\ canAssign (personalizeStateFor (state ex_lobby) (Some "p1")) "p1" = true
  /\ status (state (dispatch (ex_env 1004) AssignRoles "c1" ex_lobby).1) = assigned.
Proof.
  assert (H : connectionIdToClientId ex_lobby !! "c1" = Some "p1")
    by (vm_compute; reflexivity).
  assert (Hcan : canAssign (personalizeStateFor (state ex_lobby) (Some "p1")) "p1" = true)
    by (vm_compute; reflexivity).
  split; [exact ex_lobby_reachable|]. split; [exact H|]. split; [exact Hcan|].
  exact (proj1 (proj2 (canAssign_agrees (ex_env 1004) "c1" "p1" ex_lobby
                         ex_lobby_reachable H) Hcan)).
Defined.

(** X29. The role view of a player lists every role of the catalog once, by
    falling impact score for that player. [myRole] is the catalog entry of
    the player's role key: it exists for every role key and is missing
    exactly when the player has no role. *)
Theorem assigned_view_lists_catalog me :
  sortedRoles me ≡ₚ rolesCatalog
  /\ StronglySorted
       (fun a b => computeImpactScore (roleKey me) b <= computeImpactScore (roleKey me) a)
       (sortedRoles me)
  /\ (forall k, roleKey me = Some k ->
        exists r, myRole me = Some r /\ key r = k /\ r ∈ rolesCatalog)
  /\ (myRole me = None <-> roleKey me = None).
Proof.
  split; [apply sort_by_perm|]. split.
  { eapply StronglySorted_weaken; [|apply sort_by_sorted].
    - intros a b H. simpl in H. by apply Z.leb_le.
    - intros x y H. apply Z.leb_gt in H. apply Z.leb_le. lia.
    - intros x y z H1%Z.leb_le H2%Z.leb_le. apply Z.leb_le. lia. }
  unfold myRole. destruct (roleKey me) as [k|].
  - split.
    + intros k' [= <-]. destruct k; eexists; (split; [reflexivity|]);
        (split; [reflexivity|]); unfold rolesCatalog;
        rewrite !elem_of_cons; auto.
    + by destruct k.
  - split; [done|]. done.
Qed.

(** ** Well-formed rooms, for the record *)

(** X30. In every state a room can reach, every participant is stored
    once, under a key that is its own non-empty [id]; every quota lies in
    [0, 99], so [totalRoles] is at most 396 and is the size of the deck. *)
Theorem reachable_room_is_well_formed srv :
  reachable srv ->
  NoDup (players (state srv)).*1
  /\ (forall k p, obj_get k (players (state srv)) = Some p -> k <> "" /\ id p = k)
  /\ (forall r, 0 <= config_get (roleConfig (state srv)) r <= 99)
  /\ 0 <= totalRoles (roleConfig (state srv)) <= 396
  /\ totalRoles (roleConfig (state srv))
     = Z.of_nat (length (buildDeck (roleConfig (state srv)))).
Proof.
  intros [Hnd Hids Hq]%reachable_wf. split; [done|]. split.
  { intros k p Hg%obj_get_elem. rewrite Forall_forall in Hids.
    apply (Hids (k, p) Hg). }
  split; [done|]. split.
  - rewrite totalRoles_unfold.
    pose proof (Hq A). pose proof (Hq B). pose proof (Hq C). pose proof (Hq D).
    simpl in *. lia.
  - symmetry. apply buildDeck_total. intros r. apply Hq.
Qed.

Lemma reachable_room_is_well_formed_witness :
  reachable ex_assigned /\ NoDup (players (state ex_assigned)).*1.
Proof.
  split; [exact ex_assigned_reachable|].
  exact (proj1 (reachable_room_is_well_formed ex_assigned ex_assigned_reachable)).
Defined.
